(** * ldrc-common: subsystem life cycle, bring-up manager, reader/writer lock

    A shallow embedding of [subsystem.cpp], [subsystem.h] and [rwlock.cpp]
    and the properties of the bring-up core proved over it.

    Addresses are natural numbers, the null pointer is [0].  Objects live
    in finite maps from addresses; the intrusive [next] field of a
    dependency specification is kept as an address, so a list that was
    linked into a loop is representable. *)

From stdpp Require Import base decidable option list gmap fin_maps.
From Stdlib Require Import ZArith Lia.

Local Open Scope Z_scope.

(* stdpp's solvers clear hypotheses that are already gone *)
#[local] Set Warnings "-clear-no-such-hyp".

Abbreviation ptr := nat (only parsing).
Abbreviation NULL := 0%nat (only parsing).

(** ** Life-cycle status ([BaseSubsystem::Status]) *)

Inductive Status : Type :=
  | INIT       (* the initial state *)
  | READY      (* after successfully running setup() *)
  | FAULT      (* a fault has occurred *)
  | RUNNING    (* subsystem is running normally *)
  | STOPPED.   (* subsystem is stopped normally *)

#[global] Instance Status_eq_dec : EqDecision Status.
Proof. solve_decision. Defined.

(** ** BaseSubsystem

    [getStatus] and [setStatus] bracket the access to [status] with
    [rwLock.RLock()/RUnlock()] and [rwLock.Lock()/UnLock()].  In a run of
    one thread on a lock nobody holds, both pairs return at once and put the
    semaphore back (see [read_section_restores] and
    [write_section_restores] below), so the sequential embedding
    reads and writes the field directly. *)

Module Base.

Record BaseSubsystem : Type := mkBase { status : Status }.

(* BaseSubsystem::BaseSubsystem() : status(INIT), name("UNSET") *)
Definition construct : BaseSubsystem := {| status := INIT |}.

Definition getStatus (self : BaseSubsystem) : Status := status self.

Definition setStatus (newStatus : Status) (self : BaseSubsystem) : BaseSubsystem :=
  {| status := newStatus |}.

End Base.

(** ** TickableSubsystem *)

Module Tickable.
Import Base.

(* Status TickableSubsystem::start() { setStatus(RUNNING); return getStatus(); } *)
Definition start (self : BaseSubsystem) : Status * BaseSubsystem :=
  let self := setStatus RUNNING self in
  (getStatus self, self).

End Tickable.

(** ** ThreadedSubsystem *)

Module Threaded.

Record ThreadedSubsystem : Type := mkThreaded {
  status : Status;
  taskHandle : ptr
}.

(* ThreadedSubsystem::ThreadedSubsystem() : taskHandle(0), on top of the
   base constructor. *)
Definition construct : ThreadedSubsystem :=
  {| status := INIT; taskHandle := NULL |}.

Definition getStatus (self : ThreadedSubsystem) : Status := status self.

Definition setStatus (newStatus : Status) (self : ThreadedSubsystem) : ThreadedSubsystem :=
  {| status := newStatus; taskHandle := taskHandle self |}.

(** What one call of [start] did: the status it returned, the object it
    left, and how many times it called
    [xTaskCreateStaticPinnedToCore]. *)
Record StartResult : Type := mkStartResult {
  returned : Status;
  object : ThreadedSubsystem;
  creations : nat
}.

(** [created] is the handle the scheduler's
    [xTaskCreateStaticPinnedToCore] hands back if it is called: [NULL]
    when the task could not be created. *)
Definition start (created : ptr) (self : ThreadedSubsystem) : StartResult :=
  let '(self, n) :=
    if bool_decide (getStatus self ≠ FAULT)
    then ({| status := status self; taskHandle := created |}, 1%nat)
    else (self, 0%nat) in
  let self :=
    if bool_decide (taskHandle self = NULL)
    then setStatus FAULT self
    else setStatus RUNNING self in
  {| returned := getStatus self; object := self; creations := n |}.

(** [start()] called again and again: [results] are the handles the task
    creation would hand back, call by call.  The object that is left and
    the number of task creations that were made. *)
Definition restart (results : list ptr) (self : ThreadedSubsystem) : ThreadedSubsystem * nat :=
  foldl (λ acc created,
           let r := start created acc.1 in (object r, (acc.2 + creations r)%nat))
        (self, 0%nat) results.

(** The bounds of the start-up delay, in ticks:
    [minimum_number = 1] and
    [maximum_number = (100L * configTICK_RATE_HZ) / 1000L]; the tick rate is
    the scheduler's configuration. *)
Definition minimum_number : Z := 1.
Definition maximum_number (tick_rate_hz : Z) : Z := (100 * tick_rate_hz) `quot` 1000.

(** The delay the task function sleeps before it calls [taskFunction]:
    [esp_random() % (maximum_number + 1 - minimum_number) + minimum_number]
    with [random] the 32-bit value of [esp_random()].  The operands are
    brought to 32-bit unsigned ([long] has 32 bits on the target); [None]
    is the division by zero. *)
Definition task_delay (tick_rate_hz random : Z) : option Z :=
  let modulus := (maximum_number tick_rate_hz + 1 - minimum_number) `mod` 2 ^ 32 in
  if decide (modulus = 0) then None
  else Some ((random `mod` modulus + minimum_number) `mod` 2 ^ 32).

End Threaded.

(** ** SubsystemManagerClass *)

Module Manager.

(** [SubsystemManagerClass::Spec].  [deps] holds the entries of the
    null-terminated array up to its end; a null [deps] pointer is the
    empty list (the loop over it runs zero times either way). *)
Record Spec : Type := mkSpec {
  subsystem : ptr;
  deps : list ptr;
  next : ptr
}.

(** What a run lets an observer see: every entry into
    [descendAndStartOrSetup] with its arguments, and every call of a
    subsystem's virtual [setup()] or [start()]. *)
Inductive Event : Type :=
  | EvCall (spec : ptr) (desiredState : Status) (depth : Z)
  | EvSetup (subsys : ptr)
  | EvStart (subsys : ptr).

#[global] Instance Event_eq_dec : EqDecision Event.
Proof. solve_decision. Defined.

Section WithSubsystems.

(** The subsystems are the manager's collaborators: [Obj] is the state of
    a subsystem object, [obj_status] what its [getStatus()] reads, and
    [vsetup p] / [vstart p] what the [setup()] / [start()] override of
    the object at address [p] does to that object.  An override acts on
    its own object only ([status] and [setStatus] are protected
    members). *)
Variable Obj : Type.
Variable obj_status : Obj → Status.
Variables vsetup vstart : ptr → Obj → Obj.

Record World : Type := mkWorld {
  specs : ptr;                  (* SubsystemManagerClass::specs *)
  setup_flag : bool;            (* static bool setup, in addSubsystem *)
  spec_heap : gmap nat Spec;    (* the Spec objects, by address *)
  objs : gmap nat Obj;          (* the subsystem objects, by address *)
  mgr_status : Status;          (* the manager's own BaseSubsystem::status *)
  trace : list Event            (* oldest first *)
}.

Definition with_specs (p : ptr) (w : World) : World :=
  mkWorld p (setup_flag w) (spec_heap w) (objs w) (mgr_status w) (trace w).
Definition with_setup_flag (b : bool) (w : World) : World :=
  mkWorld (specs w) b (spec_heap w) (objs w) (mgr_status w) (trace w).
Definition with_spec_heap (h : gmap nat Spec) (w : World) : World :=
  mkWorld (specs w) (setup_flag w) h (objs w) (mgr_status w) (trace w).
Definition with_objs (o : gmap nat Obj) (w : World) : World :=
  mkWorld (specs w) (setup_flag w) (spec_heap w) o (mgr_status w) (trace w).
Definition with_mgr_status (s : Status) (w : World) : World :=
  mkWorld (specs w) (setup_flag w) (spec_heap w) (objs w) s (trace w).
Definition with_trace (t : list Event) (w : World) : World :=
  mkWorld (specs w) (setup_flag w) (spec_heap w) (objs w) (mgr_status w) t.

(** A call either returns, or is still running when the budget of
    loop iterations and nested calls is used up, or touches an address
    that holds no object.  Each case keeps the world reached. *)
Inductive Outcome (A : Type) : Type :=
  | Done (a : A) (w : World)
  | OutOfFuel (w : World)
  | Undefined (w : World).
Arguments Done {A} a w.
Arguments OutOfFuel {A} w.
Arguments Undefined {A} w.

Definition world_of {A} (o : Outcome A) : World :=
  match o with Done _ w | OutOfFuel w | Undefined w => w end.

Definition M (A : Type) : Type := World → Outcome A.

#[global] Instance M_ret : MRet M := λ A a w, Done a w.
#[global] Instance M_bind : MBind M := λ A B f m w,
  match m w with
  | Done a w' => f a w'
  | OutOfFuel w' => OutOfFuel w'
  | Undefined w' => Undefined w'
  end.

Definition get_world : M World := λ w, Done w w.
Definition modify (f : World → World) : M unit := λ w, Done tt (f w).
Definition out_of_fuel {A} : M A := λ w, OutOfFuel w.
Definition emit (e : Event) : M unit := modify (λ w, with_trace (trace w ++ [e]) w).

(* *p for a Spec* p *)
Definition deref_spec (p : ptr) : M Spec := λ w,
  match spec_heap w !! p with
  | Some sp => Done sp w
  | None => Undefined w
  end.

(* p->next = q *)
Definition store_next (p q : ptr) : M unit := λ w,
  match spec_heap w !! p with
  | Some sp => Done tt (with_spec_heap (<[p := mkSpec (subsystem sp) (deps sp) q]> (spec_heap w)) w)
  | None => Undefined w
  end.

(* p->getStatus() *)
Definition getStatus (p : ptr) : M Status := λ w,
  match objs w !! p with
  | Some o => Done (obj_status o) w
  | None => Undefined w
  end.

(* p->setup() and p->start(), virtual; the status they return is dropped
   by the manager *)
Definition call_setup (p : ptr) : M unit := λ w,
  match objs w !! p with
  | Some o => Done tt (with_trace (trace w ++ [EvSetup p]) (with_objs (<[p := vsetup p o]> (objs w)) w))
  | None => Undefined w
  end.
Definition call_start (p : ptr) : M unit := λ w,
  match objs w !! p with
  | Some o => Done tt (with_trace (trace w ++ [EvStart p]) (with_objs (<[p := vstart p o]> (objs w)) w))
  | None => Undefined w
  end.

(** [addSubsystem]: the first call clears [specs]; a null spec or a spec
    without owner is dropped; otherwise the spec becomes the head. *)
Definition addSubsystem (spec : ptr) : M unit :=
  w ← get_world;
  (if setup_flag w then mret tt
   else modify (λ w, with_setup_flag true (with_specs NULL w))) ;;
  if decide (spec = NULL) then mret tt else
  sp ← deref_spec spec;
  if decide (subsystem sp = NULL) then mret tt else
  w ← get_world;
  (if decide (specs w ≠ NULL) then store_next spec (specs w)
   else store_next spec NULL) ;;
  modify (with_specs spec).

(** [findSpecBySubsystem]: walk the list from [specs] along [next]. *)
Fixpoint find_from (fuel : nat) (needle spec : ptr) : M ptr :=
  match fuel with
  | O => out_of_fuel
  | S fuel =>
      if decide (spec = NULL) then mret NULL else
      sp ← deref_spec spec;
      if decide (subsystem sp = needle) then mret spec
      else find_from fuel needle (next sp)
  end.

Definition findSpecBySubsystem (fuel : nat) (needle : ptr) : M ptr :=
  w ← get_world; find_from fuel needle (specs w).

(** The loop over the dependency array,
    [for (i = 0; deps && deps[i] && depth < 8; i++) call(deps[i], depth++)]:
    the callee gets the value [depth] had before the increment, and the
    increment stays in the caller's local variable.  [depth] is an [int];
    it grows only while it is below 8, so it never wraps. *)
Fixpoint for_deps (call : ptr → Z → M unit) (ds : list ptr) (depth : Z) : M unit :=
  match ds with
  | [] => mret tt
  | d :: ds =>
      if decide (d = NULL) then mret tt else
      if decide (depth < 8) then call d depth ;; for_deps call ds (depth + 1)
      else mret tt
  end.

(** The part of [descendAndStartOrSetup] after the loop: read the
    owner's status once, leave when it is the target or [FAULT] or
    [STOPPED], else call [setup()] from [INIT] towards [READY] and
    [start()] from [READY] towards [RUNNING]. *)
Definition advance_owner (subsys : ptr) (desiredState : Status) : M unit :=
  status ← getStatus subsys;
  if bool_decide (status = desiredState)
     || (bool_decide (status = FAULT) || bool_decide (status = STOPPED))
  then mret tt else
  (if bool_decide (desiredState = READY) && bool_decide (status = INIT)
   then call_setup subsys else mret tt) ;;
  (if bool_decide (desiredState = RUNNING) && bool_decide (status = READY)
   then call_start subsys else mret tt).

Fixpoint descendAndStartOrSetup (fuel : nat) (spec : ptr) (desiredState : Status)
    (depth : Z) : M unit :=
  match fuel with
  | O => out_of_fuel
  | S fuel =>
      emit (EvCall spec desiredState depth) ;;
      w ← get_world;
      if decide (specs w = NULL) then mret tt else
      if decide (spec = NULL) then mret tt else
      sp ← deref_spec spec;
      if decide (subsystem sp = NULL) then mret tt else
      for_deps (λ d depth,
                  s ← findSpecBySubsystem fuel d;
                  descendAndStartOrSetup fuel s desiredState depth)
               (deps sp) depth ;;
      advance_owner (subsystem sp) desiredState
  end.

(** The loop shared by [setup()] and [start()]:
    [while (spec != NULL && spec->subsystem != NULL)
       { descendAndStartOrSetup(spec, target); spec = spec->next; }].
    [depth0] is the value the declaration gives the omitted [depth]
    argument. *)
Fixpoint bring_up (fuel : nat) (depth0 : Z) (desiredState : Status) (spec : ptr) : M unit :=
  match fuel with
  | O => out_of_fuel
  | S fuel =>
      if decide (spec = NULL) then mret tt else
      sp ← deref_spec spec;
      if decide (subsystem sp = NULL) then mret tt else
      descendAndStartOrSetup fuel spec desiredState depth0 ;;
      sp ← deref_spec spec;
      bring_up fuel depth0 desiredState (next sp)
  end.

Definition setup (fuel : nat) (depth0 : Z) : M Status :=
  w ← get_world;
  bring_up fuel depth0 READY (specs w) ;;
  modify (with_mgr_status READY) ;;
  w ← get_world; mret (mgr_status w).

Definition start (fuel : nat) (depth0 : Z) : M Status :=
  w ← get_world;
  bring_up fuel depth0 RUNNING (specs w) ;;
  modify (with_mgr_status RUNNING) ;;
  w ← get_world; mret (mgr_status w).


(** *** Vocabulary of the properties *)

(** [FAULT] and [STOPPED] are the states bring-up never leaves. *)
Definition terminal (s : Status) : Prop := s = FAULT ∨ s = STOPPED.

(** A subsystem is settled for a target when the status check of
    [descendAndStartOrSetup] makes the call leave. *)
Definition settled (desiredState : Status) (o : Obj) : Prop :=
  obj_status o = desiredState ∨ terminal (obj_status o).

(** The events that are calls of the virtual methods of [p]. *)
Definition owner_event (p : ptr) (e : Event) : Prop :=
  e = EvSetup p ∨ e = EvStart p.

(** [m] leaves the object [o] at [p] as it is and calls none of its
    virtual methods, also when [m] does not return. *)
Definition leaves_alone {A} (p : ptr) (o : Obj) (m : M A) : Prop :=
  ∀ w, objs w !! p = Some o →
    objs (world_of (m w)) !! p = Some o
    ∧ ∃ evs, trace (world_of (m w)) = trace w ++ evs
             ∧ Forall (λ e, ¬ owner_event p e) evs.

(** The world after the status check and the call it leads to, for an
    owner object [o] read at [p]. *)
Definition owner_step (p : ptr) (desiredState : Status) (w : World) : World :=
  match objs w !! p with
  | None => w
  | Some o =>
      if decide (desiredState = READY ∧ obj_status o = INIT)
      then with_trace (trace w ++ [EvSetup p]) (with_objs (<[p := vsetup p o]> (objs w)) w)
      else if decide (desiredState = RUNNING ∧ obj_status o = READY)
      then with_trace (trace w ++ [EvStart p]) (with_objs (<[p := vstart p o]> (objs w)) w)
      else w
  end.


(** [l] is the chain of Spec addresses from [p] along [next], up to the
    null pointer. *)
Fixpoint lseg (h : gmap nat Spec) (p : ptr) (l : list ptr) : Prop :=
  match l with
  | [] => p = NULL
  | x :: l => p = x ∧ x ≠ NULL ∧ ∃ sp, h !! x = Some sp ∧ lseg h (next sp) l
  end.

(** The head of the list as [addSubsystem] sees it: [specs] counts only
    after the first call. *)
Definition head_of (w : World) : ptr := if setup_flag w then specs w else NULL.

(** The constructors of the subsystems run one after the other and each
    registers its spec: [order] lists the specs, first constructor
    first. *)
Definition register (order : list ptr) : M unit :=
  foldr (λ spec rest, addSubsystem spec ;; rest) (mret tt) order.

(** The calls of virtual methods in a trace, in the order they were
    made. *)
Definition is_milestone (e : Event) : bool :=
  match e with EvCall _ _ _ => false | _ => true end.
Definition milestones (t : list Event) : list Event :=
  filter (λ e, is_milestone e = true) t.


(** *** Two subsystems that depend on each other *)

(** The objects as their constructors leave them, before any
    [addSubsystem]: [A] at [a] with the array [{&B, NULL}] in the spec at
    [sa], [B] at [b] with [{&A, NULL}] in the spec at [sb]. *)
Definition cycle_world (a b sa sb : ptr) (oa ob : Obj) : World :=
  {| specs := NULL; setup_flag := false;
     spec_heap := <[sa := mkSpec a [b] NULL]> (<[sb := mkSpec b [a] NULL]> ∅);
     objs := <[a := oa]> (<[b := ob]> ∅);
     mgr_status := INIT; trace := [] |}.

(** Both specs are on the registered list. *)
Definition cycle_ok (a b sa sb : ptr) (w : World) : Prop :=
  specs w ≠ NULL
  ∧ (∃ n, spec_heap w !! sa = Some (mkSpec a [b] n))
  ∧ (∃ n, spec_heap w !! sb = Some (mkSpec b [a] n))
  ∧ ∃ l, lseg (spec_heap w) (specs w) l ∧ l ≡ₚ [sa; sb].


(** *** A chain of three: A needs B, B needs C *)

(** The objects as their constructors leave them: [A] with the array
    [{&B, NULL}], [B] with [{&C, NULL}], [C] with [{NULL}]. *)
Definition chain_world (a b c sa sb sc : ptr) (oa ob oc : Obj) : World :=
  {| specs := NULL; setup_flag := false;
     spec_heap := <[sa := mkSpec a [b] NULL]>
                    (<[sb := mkSpec b [c] NULL]> (<[sc := mkSpec c [] NULL]> ∅));
     objs := <[a := oa]> (<[b := ob]> (<[c := oc]> ∅));
     mgr_status := INIT; trace := [] |}.

(** The three specs are the registered list, in some order. *)
Definition chain_ok (a b c sa sb sc : ptr) (w : World) : Prop :=
  specs w ≠ NULL
  ∧ (∃ n, spec_heap w !! sa = Some (mkSpec a [b] n))
  ∧ (∃ n, spec_heap w !! sb = Some (mkSpec b [c] n))
  ∧ (∃ n, spec_heap w !! sc = Some (mkSpec c [] n))
  ∧ ∃ l, lseg (spec_heap w) (specs w) l ∧ l ≡ₚ [sa; sb; sc].

(** The world once a call has been entered. *)
Definition enter (spec : ptr) (desiredState : Status) (depth : Z) (w : World) : World :=
  with_trace (trace w ++ [EvCall spec desiredState depth]) w.

(** The status [getStatus()] reads at [p], if an object is there. *)
Definition stat (w : World) (p : ptr) : option Status := obj_status <$> objs w !! p.

(** The status a milestone is reached from, and the call that reaches
    it. *)
Definition before (desiredState : Status) : Status :=
  match desiredState with RUNNING => READY | _ => INIT end.
Definition milestone_of (desiredState : Status) (p : ptr) : Event :=
  match desiredState with RUNNING => EvStart p | _ => EvSetup p end.

(** [k] of the three have reached the milestone, [C] first, then [B],
    then [A], and this is the order in which the calls were made after
    the calls [base] that came before. *)
Definition phase (a b c : ptr) (desiredState : Status) (base : list Event) (k : nat)
    (w : World) : Prop :=
  stat w c = Some (if decide (1 ≤ k)%nat then desiredState else before desiredState)
  ∧ stat w b = Some (if decide (2 ≤ k)%nat then desiredState else before desiredState)
  ∧ stat w a = Some (if decide (3 ≤ k)%nat then desiredState else before desiredState)
  ∧ milestones (trace w)
    = base ++ take k [milestone_of desiredState c; milestone_of desiredState b;
                      milestone_of desiredState a].


(** [w'] has the list, the specs and the manager's status of [w]. *)
Definition frame (w w' : World) : Prop :=
  specs w' = specs w ∧ spec_heap w' = spec_heap w ∧ mgr_status w' = mgr_status w.


(** *** Vocabulary for the rest of the manager *)

(** The owner is due: the status check lets the call go on to [setup()]
    or to [start()]. *)
Definition due (desiredState : Status) (o : Obj) : Prop :=
  (desiredState = READY ∧ obj_status o = INIT)
  ∨ (desiredState = RUNNING ∧ obj_status o = READY).

(** [w'] has the list, the specs and the manager's status of [w], and an
    object wherever [w] has one. *)
Definition stable (w w' : World) : Prop :=
  frame w w' ∧ ∀ p, is_Some (objs w !! p) → is_Some (objs w' !! p).

(** The world [m] leaves, whether [m] returns or not, is related by [R] to
    the world it starts in. *)
Definition respects (R : World → World → Prop) {A} (m : M A) : Prop :=
  ∀ w, R w (world_of (m w)).

(** The events a bring-up towards [desiredState] can make. *)
Definition event_for (desiredState : Status) (e : Event) : Prop :=
  match e with
  | EvCall _ target _ => target = desiredState
  | EvSetup _ => desiredState = READY
  | EvStart _ => desiredState = RUNNING
  end.

(** From [w] to [w'] only events of a bring-up towards [desiredState]
    were added. *)
Definition said (desiredState : Status) (w w' : World) : Prop :=
  ∃ evs, trace w' = trace w ++ evs ∧ Forall (event_for desiredState) evs.

(** From [w] to [w'] the call [e] was made, or the object [o] at [p] is
    still as it was. *)
Definition called_or_kept (p : ptr) (o : Obj) (e : Event) (w w' : World) : Prop :=
  ∃ evs, trace w' = trace w ++ evs
         ∧ (objs w !! p = Some o → e ∈ evs ∨ objs w' !! p = Some o).

(** From [w] to [w'] the object [o] at [p] was left as it is and none of
    its virtual methods was called. *)
Definition untouched (p : ptr) (o : Obj) (w w' : World) : Prop :=
  objs w !! p = Some o →
  objs w' !! p = Some o
  ∧ ∃ evs, trace w' = trace w ++ evs ∧ Forall (λ e, ¬ owner_event p e) evs.

(** The entries of a dependency array before its terminator. *)
Fixpoint before_null (ds : list ptr) : list ptr :=
  match ds with
  | [] => []
  | d :: ds => if decide (d = NULL) then [] else d :: before_null ds
  end.

(** The nested calls the loop over [ds] makes when it is entered with
    [depth]: which dependency, and with which depth. *)
Definition planned (ds : list ptr) (depth : Z) : list (ptr * Z) :=
  imap (λ i d, (d, depth + Z.of_nat i))
       (take (Z.to_nat (8 - depth)) (before_null ds)).

Definition run_calls (call : ptr → Z → M unit) (l : list (ptr * Z)) : M unit :=
  foldr (λ c rest, call c.1 c.2 ;; rest) (mret tt) l.

(** The registered list is [l], every spec on it has an owner object, and
    [rank] goes down along every dependency: the graph has no cycle. *)
Definition acyclic (rank : ptr → nat) (w : World) (l : list ptr) : Prop :=
  lseg (spec_heap w) (specs w) l
  ∧ ∀ x, x ∈ l →
      ∃ sp, spec_heap w !! x = Some sp
            ∧ is_Some (objs w !! subsystem sp)
            ∧ ∀ d, d ∈ deps sp → (rank d < rank (subsystem sp))%nat.

End WithSubsystems.

Arguments Done {Obj A} a w.
Arguments OutOfFuel {Obj A} w.
Arguments Undefined {Obj A} w.
Arguments world_of {Obj A} o.
Arguments specs {Obj} w.
Arguments setup_flag {Obj} w.
Arguments spec_heap {Obj} w.
Arguments objs {Obj} w.
Arguments mgr_status {Obj} w.
Arguments trace {Obj} w.
Arguments with_trace {Obj} t w.
Arguments with_objs {Obj} o w.

End Manager.

(** ** DataThing<T> *)

Module DataThing.

(* struct callback { void *args; void (*fn)(const T&, void*); } *)
Record callback : Type := mkCallback { args : ptr; fn : ptr }.

Definition MAX_CALLBACKS : Z := 8.

Record DataThing (T : Type) : Type := mkDataThing {
  data : T;
  numCallbacks : Z;
  callbacks : list callback     (* callback callbacks[MAX_CALLBACKS] *)
}.
Arguments mkDataThing {T} data numCallbacks callbacks.
Arguments data {T} d.
Arguments numCallbacks {T} d.
Arguments callbacks {T} d.

(** The constructor sets [numCallbacks] to 0 and leaves the array as it
    finds it: [junk] is whatever the eight cells hold. *)
Definition construct {T} (d : T) (junk : callback) : DataThing T :=
  {| data := d; numCallbacks := 0; callbacks := replicate 8 junk |}.

(** [registerCallback]; it returns nothing, so the new object is all the
    caller gets.  The write lock is taken and given back on both paths. *)
Definition registerCallback {T} (f a : ptr) (self : DataThing T) : DataThing T :=
  if decide (numCallbacks self = MAX_CALLBACKS) then self
  else
    let cb := {| args := a; fn := f |} in
    {| data := data self;
       numCallbacks := numCallbacks self + 1;
       callbacks := <[Z.to_nat (numCallbacks self) := cb]> (callbacks self) |}.

(** One call [cb.fn(data, cb.args)]. *)
Record Invocation (T : Type) : Type := mkInvocation {
  inv_fn : ptr;
  inv_data : T;
  inv_args : ptr
}.
Arguments mkInvocation {T} inv_fn inv_data inv_args.

(** [callCallbacks]: the calls made, in order, for [i = 0 .. n-1]; [None]
    when a cell outside the array would be read.  The callbacks get the
    data by const reference and leave the object alone. *)
Definition callCallbacks {T} (self : DataThing T) : option (list (Invocation T)) :=
  let n := numCallbacks self in
  mapM (λ i, cb ← callbacks self !! i;
             Some (mkInvocation (fn cb) (data self) (args cb)))
       (seq 0 (Z.to_nat n)).

(** A run of [registerCallback] calls, first call first. *)
Definition registerAll {T} (regs : list (ptr * ptr)) (self : DataThing T) : DataThing T :=
  foldl (λ d r, registerCallback r.1 r.2 d) self regs.

(** The call a registered callback gets. *)
Definition invoke {T} (d : T) (cb : callback) : Invocation T :=
  mkInvocation (fn cb) d (args cb).

(** [self] holds the data [d] and exactly the registrations [rs], in the
    first cells of the array. *)
Definition holds {T} (rs : list callback) (d : T) (self : DataThing T) : Prop :=
  data self = d
  ∧ numCallbacks self = Z.of_nat (length rs)
  ∧ (length rs ≤ 8)%nat
  ∧ length (callbacks self) = 8%nat
  ∧ take (length rs) (callbacks self) = rs.

End DataThing.

(** ** ReadWriteLock

    The lock is a counting semaphore [sem] with [MAX_READERS] tokens and a
    mutex.  Threads are interleaved at the grain of one semaphore call:
    [xSemaphoreTake(_, portMAX_DELAY)] goes through when the count is
    positive and waits otherwise, [xSemaphoreGive] adds a token unless the
    count is at its maximum. *)

Module RWLock.

Definition MAX_READERS : nat := 8.

(** Where a thread is with respect to the writer side. *)
Inductive WPhase : Type :=
  | NotWriter                (* outside Lock() .. UnLock() *)
  | LockLoop (count : nat)   (* inside Lock(): mutex taken, [count] tokens taken *)
  | Writer                   (* Lock() returned; no UnLock() or Lock() begun since *)
  | UnlockLoop (count : nat).  (* inside UnLock(): [count] tokens given back *)

Record Thread : Type := mkThread {
  rheld : nat;      (* RLock() calls that returned and are not yet undone by RUnlock() *)
  wphase : WPhase
}.

Record State : Type := mkState {
  sem : nat;               (* count of the counting semaphore *)
  mutex : nat;             (* count of the mutex: 1 free, 0 taken *)
  threads : list Thread    (* by thread number *)
}.

(* The constructor: xSemaphoreCreateCountingStatic(MAX_READERS, MAX_READERS, _)
   and a fresh mutex; no thread holds anything. *)
Definition construct (nthreads : nat) : State :=
  {| sem := MAX_READERS; mutex := 1; threads := replicate nthreads (mkThread 0 NotWriter) |}.

(* xSemaphoreGive on a semaphore with maximal count [max] *)
Definition give (max count : nat) : nat :=
  if decide (count < max)%nat then S count else count.

(** The calls a thread can be scheduled for. *)
Inductive Op : Type := OpRLock | OpRUnlock | OpLock | OpUnLock.

(** One semaphore call of thread [th] inside operation [op]; [None] when
    the thread has to wait in [xSemaphoreTake], or is inside [Lock()] or
    [UnLock()] and so cannot begin another operation.  The lock keeps no
    record of who holds what: [RUnlock()] and [UnLock()] give whether or
    not the caller holds a lock, and [Lock()] takes the mutex whenever it
    is free. *)
Definition step_thread (op : Op) (s : State) (th : Thread) : option (State → State) :=
  let set_sem n (s : State) := mkState n (mutex s) (threads s) in
  let set_mutex n (s : State) := mkState (sem s) n (threads s) in
  match op, wphase th with
  (* RLock: xSemaphoreTake(sem) *)
  | OpRLock, (NotWriter | Writer) =>
      if decide (0 < sem s)%nat then Some (set_sem (pred (sem s))) else None
  (* RUnlock: xSemaphoreGive(sem) *)
  | OpRUnlock, (NotWriter | Writer) => Some (set_sem (give MAX_READERS (sem s)))
  (* Lock: xSemaphoreTake(mutex), then the loop of xSemaphoreTake(sem) *)
  | OpLock, (NotWriter | Writer) =>
      if decide (0 < mutex s)%nat then Some (set_mutex (pred (mutex s))) else None
  | OpLock, LockLoop count =>
      if decide (0 < sem s)%nat then Some (set_sem (pred (sem s))) else None
  (* UnLock: the loop of xSemaphoreGive(sem), then xSemaphoreGive(mutex) *)
  | OpUnLock, (NotWriter | Writer) => Some (set_sem (give MAX_READERS (sem s)))
  | OpUnLock, UnlockLoop count =>
      if decide (count < MAX_READERS)%nat then Some (set_sem (give MAX_READERS (sem s)))
      else Some (set_mutex (give 1 (mutex s)))
  | _, _ => None
  end.

(** The thread's own record after that call. *)
Definition next_thread (op : Op) (th : Thread) : Thread :=
  match op, wphase th with
  | OpRLock, _ => mkThread (S (rheld th)) (wphase th)
  | OpRUnlock, _ => mkThread (pred (rheld th)) (wphase th)
  | OpLock, (NotWriter | Writer) => mkThread (rheld th) (LockLoop 0)
  | OpLock, LockLoop count =>
      mkThread (rheld th) (if decide (S count < MAX_READERS)%nat then LockLoop (S count) else Writer)
  | OpUnLock, (NotWriter | Writer) => mkThread (rheld th) (UnlockLoop 1)
  | OpUnLock, UnlockLoop count =>
      mkThread (rheld th) (if decide (count < MAX_READERS)%nat then UnlockLoop (S count) else NotWriter)
  | _, _ => th
  end.

(** Thread [t] is scheduled for one call of [op]; a thread that waits, is
    inside another operation, or does not exist, leaves the state as it
    is. *)
Definition exec (t : nat) (op : Op) (s : State) : State :=
  match threads s !! t with
  | None => s
  | Some th =>
      match step_thread op s th with
      | None => s
      | Some f =>
          let s := f s in
          mkState (sem s) (mutex s) (<[t := next_thread op th]> (threads s))
      end
  end.

(** An interleaving is the list of scheduled calls, first call first. *)
Definition run (sched : list (nat * Op)) (s : State) : State :=
  foldl (λ s c, exec c.1 c.2 s) s sched.

Definition holds_write (th : Thread) : bool :=
  match wphase th with Writer => true | _ => false end.
Definition holds_read (th : Thread) : bool := bool_decide (0 < rheld th)%nat.

Definition writers (s : State) : nat := length (filter (λ th, holds_write th = true) (threads s)).
Definition readers (s : State) : nat := length (filter (λ th, holds_read th = true) (threads s)).

(** Tokens a thread has taken out of [sem]. *)
Definition tokens (th : Thread) : nat :=
  (rheld th + match wphase th with
              | NotWriter => 0
              | LockLoop count => count
              | Writer => MAX_READERS
              | UnlockLoop count => MAX_READERS - count
              end)%nat.

(** Threads that have the mutex. *)
Definition in_mutex (th : Thread) : nat :=
  match wphase th with NotWriter => 0 | _ => 1 end.

(** What one call does to the two counts and to the caller's own record. *)
Definition local_step (op : Op) (c : nat * nat * Thread) : nat * nat * Thread :=
  match step_thread op (mkState c.1.1 c.1.2 []) c.2 with
  | None => c
  | Some f =>
      let s' := f (mkState c.1.1 c.1.2 []) in
      (sem s', mutex s', next_thread op c.2)
  end.

(** A call that gives back what the caller does not hold: [RUnlock()] by
    a thread without read lock, [UnLock()] by a thread that is not the
    writer. *)
Definition stray (op : Op) (th : Thread) : bool :=
  match op, wphase th with
  | OpRUnlock, (NotWriter | Writer) => bool_decide (rheld th = 0%nat)
  | OpUnLock, NotWriter => true
  | _, _ => false
  end.

(** The discipline of the callers: along the interleaving, run from [s],
    no call is stray.  [getStatus()], [setStatus()] and [DataThing] keep
    it, each unlock being the close of the bracket its lock opened. *)
Fixpoint disciplined (sched : list (nat * Op)) (s : State) : bool :=
  match sched with
  | [] => true
  | c :: sched =>
      match threads s !! c.1 with
      | Some th => negb (stray c.2 th)
      | None => true
      end && disciplined sched (exec c.1 c.2 s)
  end.

(** A thread inside [Lock()] has not yet taken all the tokens. *)
Definition well_formed (th : Thread) : Prop :=
  match wphase th with LockLoop count => (count < MAX_READERS)%nat | _ => True end.

(** Every token is in the semaphore or with a thread, and so is the
    mutex. *)
Definition invariant (s : State) : Prop :=
  (sem s + sum_list_with tokens (threads s) = MAX_READERS)%nat
  ∧ (mutex s + sum_list_with in_mutex (threads s) = 1)%nat
  ∧ Forall well_formed (threads s).

End RWLock.

(** ** A concrete set of subsystems

    Tickable subsystems whose [setup()] reports success: [setup()] sets the
    status to [READY], [start()] is [TickableSubsystem::start]. *)

Module Demo.
Import Manager.

Definition Obj : Type := Base.BaseSubsystem.
Definition vsetup (p : ptr) (o : Obj) : Obj := Base.setStatus READY o.
Definition vstart (p : ptr) (o : Obj) : Obj := (Tickable.start o).2.

Definition descend := descendAndStartOrSetup Obj Base.getStatus vsetup vstart.
Definition setup := Manager.setup Obj Base.getStatus vsetup vstart.
Definition start := Manager.start Obj Base.getStatus vsetup vstart.

(** [A] at address 1 depends on [B] at address 2; the specs at 11 and 12
    were registered in this order, so the list is 12, 11. *)
Definition pair (statusA statusB : Status) : World Obj :=
  mkWorld Obj 12%nat true
    (<[11%nat := mkSpec 1 [2%nat] NULL]> (<[12%nat := mkSpec 2 [] 11]> ∅))
    (<[1%nat := Base.mkBase statusA]> (<[2%nat := Base.mkBase statusB]> ∅))
    INIT [].

End Demo.

(** * Properties *)

(** C9. [TickableSubsystem::start()] sets the status to [RUNNING] and
    returns [RUNNING], whatever the status was before ([INIT], [READY],
    [FAULT], [RUNNING] or [STOPPED]). *)
Theorem tickable_start_running (self : Base.BaseSubsystem) :
  Tickable.start self = (RUNNING, Base.mkBase RUNNING).
Proof. reflexivity. Qed.

(** C7. [ThreadedSubsystem::start()] on a subsystem whose status is not
    [FAULT] calls the task creation once and keeps the handle; when the
    creation failed (null handle) the status becomes [FAULT], otherwise it
    becomes [RUNNING]; the status it returns is the resulting one. *)
Theorem threaded_start_outcome (created : ptr) (self : Threaded.ThreadedSubsystem) :
  Threaded.getStatus self ≠ FAULT →
  let r := Threaded.start created self in
  Threaded.creations r = 1%nat
  ∧ Threaded.taskHandle (Threaded.object r) = created
  ∧ Threaded.status (Threaded.object r) = (if decide (created = NULL) then FAULT else RUNNING)
  ∧ Threaded.returned r = Threaded.status (Threaded.object r).
Proof.
  intros Hnf. unfold Threaded.start.
  rewrite bool_decide_eq_true_2 by exact Hnf. cbn.
  destruct (decide (created = NULL)) as [->|Hc].
  - by cbn.
  - rewrite bool_decide_eq_false_2 by exact Hc. by cbn.
Qed.

Lemma threaded_start_outcome_witness :
  Threaded.getStatus Threaded.construct ≠ FAULT
  ∧ let r := Threaded.start 7%nat Threaded.construct in
    Threaded.creations r = 1%nat
    ∧ Threaded.taskHandle (Threaded.object r) = 7%nat
    ∧ Threaded.status (Threaded.object r) = RUNNING
    ∧ Threaded.returned r = Threaded.status (Threaded.object r).
Proof.
  split; [discriminate|].
  apply (threaded_start_outcome 7%nat Threaded.construct). discriminate.
Defined.

(** C10. [ThreadedSubsystem::start()] on a subsystem that is in [FAULT]
    but still carries a non-null [taskHandle] creates no task, and yet sets
    the status to [RUNNING] and returns [RUNNING]. *)
Theorem threaded_start_overwrites_fault (created : ptr) (self : Threaded.ThreadedSubsystem) :
  Threaded.getStatus self = FAULT →
  Threaded.taskHandle self ≠ NULL →
  let r := Threaded.start created self in
  Threaded.creations r = 0%nat
  ∧ Threaded.taskHandle (Threaded.object r) = Threaded.taskHandle self
  ∧ Threaded.status (Threaded.object r) = RUNNING
  ∧ Threaded.returned r = RUNNING.
Proof.
  intros Hf Hh. unfold Threaded.start.
  rewrite bool_decide_eq_false_2 by (intros H; apply H; exact Hf).
  rewrite bool_decide_eq_false_2 by exact Hh. by cbn.
Qed.

Lemma threaded_start_overwrites_fault_witness :
  Threaded.getStatus (Threaded.mkThreaded FAULT 5%nat) = FAULT
  ∧ Threaded.taskHandle (Threaded.mkThreaded FAULT 5%nat) ≠ NULL
  ∧ let r := Threaded.start 9%nat (Threaded.mkThreaded FAULT 5%nat) in
    Threaded.creations r = 0%nat
    ∧ Threaded.taskHandle (Threaded.object r) = 5%nat
    ∧ Threaded.status (Threaded.object r) = RUNNING
    ∧ Threaded.returned r = RUNNING.
Proof.
  split; [reflexivity|]. split; [discriminate|].
  apply (threaded_start_overwrites_fault 9%nat (Threaded.mkThreaded FAULT 5%nat)).
  - reflexivity.
  - discriminate.
Defined.

(** ** The bring-up manager *)

Section ManagerFacts.

Import Manager.

Variable Obj : Type.
Variable obj_status : Obj → Status.
Variables vsetup vstart : ptr → Obj → Obj.

Local Abbreviation World := (World Obj).
Local Abbreviation M := (M Obj).
Local Abbreviation descend := (descendAndStartOrSetup Obj obj_status vsetup vstart).
Local Abbreviation advance := (advance_owner Obj obj_status vsetup vstart).
Local Abbreviation find := (findSpecBySubsystem Obj).
Local Abbreviation alone := (leaves_alone Obj).

Implicit Types (w : World) (p q spec : ptr) (o : Obj) (fuel : nat) (depth : Z).

(** *** The monad *)

Lemma bind_run {A B} (m : M A) (f : A → M B) w :
  (m ≫= f) w = match m w with
               | Done a w' => f a w'
               | OutOfFuel w' => OutOfFuel w'
               | Undefined w' => Undefined w'
               end.
Proof. reflexivity. Qed.

Lemma bind_done {A B} (m : M A) (f : A → M B) w a w' :
  m w = Done a w' → (m ≫= f) w = f a w'.
Proof. intros H. by rewrite bind_run, H. Qed.

(** *** Objects a call leaves alone *)

Lemma alone_same {A} p o (m : M A) :
  (∀ w, objs (world_of (m w)) = objs w ∧ trace (world_of (m w)) = trace w) →
  alone p o m.
Proof.
  intros H w Hp. destruct (H w) as [-> ->]. split; [done|].
  exists []. by rewrite app_nil_r.
Qed.

Lemma alone_ret {A} p o (a : A) : alone p o (mret a).
Proof. by apply alone_same. Qed.

Lemma alone_out_of_fuel {A} p o : alone p o (out_of_fuel Obj (A:=A)).
Proof. by apply alone_same. Qed.

Lemma alone_get_world p o : alone p o (get_world Obj).
Proof. by apply alone_same. Qed.

Lemma alone_deref_spec p o q : alone p o (deref_spec Obj q).
Proof.
  apply alone_same. intros w. unfold deref_spec. by destruct (spec_heap w !! q).
Qed.

Lemma alone_bind {A B} p o (m : M A) (f : A → M B) :
  alone p o m → (∀ a, alone p o (f a)) → alone p o (m ≫= f).
Proof.
  intros Hm Hf w Hp. rewrite bind_run.
  destruct (Hm w Hp) as (Hp1 & evs1 & Ht1 & Hq1).
  destruct (m w) as [a w1|w1|w1]; cbn in *; [|by eauto..].
  destruct (Hf a w1 Hp1) as (Hp2 & evs2 & Ht2 & Hq2).
  split; [done|]. exists (evs1 ++ evs2). split.
  - by rewrite Ht2, Ht1, (assoc_L (++)).
  - by apply Forall_app.
Qed.

Lemma alone_emit_call p o spec target depth :
  alone p o (emit Obj (EvCall spec target depth)).
Proof.
  intros w Hp. split; [done|]. exists [EvCall spec target depth].
  split; [done|]. apply Forall_singleton. by intros [?|?].
Qed.

Lemma alone_find_from p o fuel needle spec :
  alone p o (find_from Obj fuel needle spec).
Proof.
  revert spec. induction fuel as [|fuel IH]; intros spec; cbn.
  - apply alone_out_of_fuel.
  - case_decide; [apply alone_ret|].
    apply alone_bind; [apply alone_deref_spec|]. intros sp.
    case_decide; [apply alone_ret | apply IH].
Qed.

Lemma alone_find p o fuel needle : alone p o (find fuel needle).
Proof.
  apply alone_bind; [apply alone_get_world|]. intros w. apply alone_find_from.
Qed.

Lemma alone_for_deps p o (call : ptr → Z → M unit) ds depth :
  (∀ d k, alone p o (call d k)) → alone p o (for_deps Obj call ds depth).
Proof.
  intros Hcall. revert depth. induction ds as [|d ds IH]; intros depth; cbn.
  - apply alone_ret.
  - case_decide; [apply alone_ret|]. case_decide; [|apply alone_ret].
    apply alone_bind; [apply Hcall|]. intros _. apply IH.
Qed.

Lemma alone_call_setup p o q : q ≠ p → alone p o (call_setup Obj vsetup q).
Proof.
  intros Hne w Hp. unfold call_setup. destruct (objs w !! q) as [oq|] eqn:Hq; cbn.
  - split; [by rewrite lookup_insert_ne|]. exists [EvSetup q]. split; [done|].
    apply Forall_singleton. intros [?|?]; congruence.
  - split; [done|]. exists []. by rewrite app_nil_r.
Qed.

Lemma alone_call_start p o q : q ≠ p → alone p o (call_start Obj vstart q).
Proof.
  intros Hne w Hp. unfold call_start. destruct (objs w !! q) as [oq|] eqn:Hq; cbn.
  - split; [by rewrite lookup_insert_ne|]. exists [EvStart q]. split; [done|].
    apply Forall_singleton. intros [?|?]; congruence.
  - split; [done|]. exists []. by rewrite app_nil_r.
Qed.

(** The status check protects a settled owner; any other owner is a
    different object. *)
Lemma alone_advance p o q target :
  settled Obj obj_status target o → alone p o (advance q target).
Proof.
  intros Hs. destruct (decide (q = p)) as [->|Hne].
  - intros w Hp. unfold advance_owner, getStatus. rewrite bind_run, Hp.
    assert (bool_decide (obj_status o = target)
            || (bool_decide (obj_status o = FAULT) || bool_decide (obj_status o = STOPPED))
            = true) as ->.
    { apply orb_true_iff. destruct Hs as [H|[H|H]].
      - left. by apply bool_decide_eq_true.
      - right. apply orb_true_iff. left. by apply bool_decide_eq_true.
      - right. apply orb_true_iff. right. by apply bool_decide_eq_true. }
    cbn. split; [done|]. exists []. by rewrite app_nil_r.
  - unfold advance_owner. apply alone_bind.
    { apply alone_same. intros w. unfold getStatus. by destruct (objs w !! q). }
    intros status. destruct (_ || _); [apply alone_ret|].
    apply alone_bind.
    + destruct (_ && _); [by apply alone_call_setup | apply alone_ret].
    + intros _. destruct (_ && _); [by apply alone_call_start | apply alone_ret].
Qed.

Lemma alone_descend p o fuel spec target depth :
  settled Obj obj_status target o → alone p o (descend fuel spec target depth).
Proof.
  intros Hs. revert spec depth. induction fuel as [|fuel IH]; intros spec depth; cbn.
  - apply alone_out_of_fuel.
  - apply alone_bind; [apply alone_emit_call|]. intros _.
    apply alone_bind; [apply alone_get_world|]. intros w.
    case_decide; [apply alone_ret|]. case_decide; [apply alone_ret|].
    apply alone_bind; [apply alone_deref_spec|]. intros sp.
    case_decide; [apply alone_ret|].
    apply alone_bind; [|intros _; by apply alone_advance].
    apply alone_for_deps. intros d k.
    apply alone_bind; [apply alone_find|]. intros s. apply IH.
Qed.

(** C4. Once the status of a subsystem is [FAULT] or [STOPPED], a call
    of [descendAndStartOrSetup] on its spec, for any target, depth and
    budget, returning or not, leaves the subsystem object (its status with
    it) as it was, and calls neither its [setup()] nor its [start()]. *)
Theorem terminal_status_is_kept fuel w spec sp o target depth :
  spec_heap w !! spec = Some sp →
  objs w !! subsystem sp = Some o →
  terminal (obj_status o) →
  let w' := world_of (descend fuel spec target depth w) in
  obj_status <$> objs w' !! subsystem sp = Some (obj_status o)
  ∧ objs w' !! subsystem sp = Some o
  ∧ ∃ evs, trace w' = trace w ++ evs
           ∧ Forall (λ e, ¬ owner_event (subsystem sp) e) evs.
Proof.
  intros _ Hp Ht w'.
  destruct (alone_descend (subsystem sp) o fuel spec target depth) with (w := w)
    as (Ho & Hev); [by right | done |].
  subst w'. by rewrite Ho.
Qed.

(** *** One call, step by step *)

Lemma advance_run p o target w :
  objs w !! p = Some o →
  advance p target w = Done tt (owner_step Obj obj_status vsetup vstart p target w).
Proof.
  intros Hp. unfold advance_owner, owner_step, getStatus, call_setup, call_start.
  rewrite bind_run, Hp.
  destruct target, (obj_status o) eqn:Hst;
    repeat first [ rewrite bool_decide_eq_true_2 by done
                 | rewrite bool_decide_eq_false_2 by done ];
    repeat first [ rewrite decide_True by done
                 | rewrite decide_False by (by intros [??]) ];
    cbn; rewrite ?bind_run; cbn; by rewrite ?Hp.
Qed.

Lemma descend_unfold fuel w spec sp target depth :
  specs w ≠ NULL → spec ≠ NULL →
  spec_heap w !! spec = Some sp → subsystem sp ≠ NULL →
  descend (S fuel) spec target depth w
  = (for_deps Obj (λ d k, s ← find fuel d; descend fuel s target k) (deps sp) depth
     ≫= λ _, advance (subsystem sp) target)
      (with_trace (trace w ++ [EvCall spec target depth]) w).
Proof.
  intros Hspecs Hspec Hsp Howner. cbn [descendAndStartOrSetup].
  rewrite bind_run. cbn [emit modify]. rewrite bind_run. cbn [get_world specs with_trace].
  rewrite decide_False by done. rewrite decide_False by done.
  rewrite bind_run. unfold deref_spec at 1. cbn [spec_heap with_trace]. rewrite Hsp.
  by rewrite decide_False by done.
Qed.

Lemma for_deps_at_bound (call : ptr → Z → M unit) ds depth w :
  8 ≤ depth → for_deps Obj call ds depth w = Done tt w.
Proof.
  intros Hd. destruct ds as [|d ds]; cbn; [done|].
  case_decide; [done|]. by rewrite decide_False by lia.
Qed.

(** C2, as the code has it. A call whose [depth] is 8 or more (so also
    one whose [depth] exceeds 8) does not go into the dependencies: it
    makes no nested call.  It does go on to the status check, and calls
    the owner's [setup()] from [INIT] towards [READY] and its [start()]
    from [READY] towards [RUNNING]. *)
Theorem descend_at_depth_bound fuel w spec sp o target depth :
  8 ≤ depth →
  specs w ≠ NULL → spec ≠ NULL →
  spec_heap w !! spec = Some sp → subsystem sp ≠ NULL →
  objs w !! subsystem sp = Some o →
  descend (S fuel) spec target depth w
  = Done tt
      (if decide (target = READY ∧ obj_status o = INIT)
       then with_trace (trace w ++ [EvCall spec target depth; EvSetup (subsystem sp)])
              (with_objs (<[subsystem sp := vsetup (subsystem sp) o]> (objs w)) w)
       else if decide (target = RUNNING ∧ obj_status o = READY)
       then with_trace (trace w ++ [EvCall spec target depth; EvStart (subsystem sp)])
              (with_objs (<[subsystem sp := vstart (subsystem sp) o]> (objs w)) w)
       else with_trace (trace w ++ [EvCall spec target depth]) w).
Proof.
  intros Hd Hspecs Hspec Hsp Howner Ho.
  rewrite (descend_unfold fuel w spec sp) by done.
  rewrite (bind_done _ _ _ tt _ (for_deps_at_bound _ _ _ _ Hd)).
  rewrite (advance_run _ o) by done.
  unfold owner_step. cbn [objs with_trace]. rewrite Ho.
  repeat case_decide; try done; unfold with_trace, with_objs; cbn;
    by rewrite <- (assoc_L (++)).
Qed.

(** C3, as the code has it. The loop over the dependencies runs first,
    whatever the owner's status is; the status is read when the loop is
    over, and if it then is the target, [FAULT] or [STOPPED], the call
    returns with the world the loop left: no [setup()], no [start()].  A
    loop that does not come back keeps the call from coming back.  An
    owner that is settled when the call starts is left as it is by the
    whole call. *)
Theorem status_check_follows_recursion fuel w spec sp target depth :
  specs w ≠ NULL → spec ≠ NULL →
  spec_heap w !! spec = Some sp → subsystem sp ≠ NULL →
  let entered := with_trace (trace w ++ [EvCall spec target depth]) w in
  let recursion :=
    for_deps Obj (λ d k, s ← find fuel d; descend fuel s target k) (deps sp) depth in
  (∀ w1 o, recursion entered = Done tt w1 →
           objs w1 !! subsystem sp = Some o →
           settled Obj obj_status target o →
           descend (S fuel) spec target depth w = Done tt w1)
  ∧ (∀ w1, recursion entered = OutOfFuel w1 →
           descend (S fuel) spec target depth w = OutOfFuel w1)
  ∧ (∀ o, objs w !! subsystem sp = Some o →
          settled Obj obj_status target o →
          alone (subsystem sp) o (descend (S fuel) spec target depth)).
Proof.
  intros Hspecs Hspec Hsp Howner entered recursion.
  rewrite (descend_unfold fuel w spec sp) by done. fold entered recursion.
  split; [|split].
  - intros w1 o Hrec Ho Hs. rewrite (bind_done _ _ _ _ _ Hrec).
    rewrite (advance_run _ o) by done. f_equal.
    unfold owner_step. rewrite Ho.
    destruct Hs as [Hs|[Hs|Hs]]; repeat case_decide; try done;
      destruct_and?; congruence.
  - intros w1 Hrec. by rewrite bind_run, Hrec.
  - intros o _ Hs. by apply alone_descend.
Qed.

(** *** The registered list *)

Lemma lseg_insert_fresh h p l x sp :
  lseg h p l → x ∉ l → lseg (<[x := sp]> h) p l.
Proof.
  revert p. induction l as [|y l IH]; intros p; cbn; [done|].
  intros (-> & Hy & spy & Hh & Hl) Hx. apply not_elem_of_cons in Hx as [Hxy Hx].
  split; [done|]. split; [done|]. exists spy. split; [|by apply IH].
  by rewrite lookup_insert_ne.
Qed.

Lemma find_from_lseg fuel needle w l p x sp :
  lseg (spec_heap w) p l →
  x ∈ l → spec_heap w !! x = Some sp → subsystem sp = needle →
  (∀ y spy, y ∈ l → spec_heap w !! y = Some spy → subsystem spy = needle → y = x) →
  (length l ≤ fuel)%nat →
  find_from Obj fuel needle p w = Done x w.
Proof.
  revert p fuel. induction l as [|y l IH]; intros p fuel Hl Hx Hsp Hn Huniq Hfuel.
  - by apply elem_of_nil in Hx.
  - destruct Hl as (-> & Hy & spy & Hh & Hl).
    destruct fuel as [|fuel]; cbn in Hfuel; [lia|]. cbn [find_from].
    rewrite decide_False by done. rewrite bind_run. unfold deref_spec at 1. rewrite Hh.
    destruct (decide (subsystem spy = needle)) as [Heq|Hne].
    + f_equal. apply (Huniq y spy); [apply list_elem_of_here | done..].
    + apply elem_of_cons in Hx as [->|Hx]; [congruence|].
      apply IH; try done; [|lia].
      intros z spz Hz. apply Huniq. by apply list_elem_of_further.
Qed.

Lemma find_lseg fuel needle w l x sp :
  lseg (spec_heap w) (specs w) l →
  x ∈ l → spec_heap w !! x = Some sp → subsystem sp = needle →
  (∀ y spy, y ∈ l → spec_heap w !! y = Some spy → subsystem spy = needle → y = x) →
  (length l ≤ fuel)%nat →
  find fuel needle w = Done x w.
Proof.
  intros. unfold findSpecBySubsystem. rewrite bind_run. cbn [get_world].
  by eapply find_from_lseg.
Qed.

Lemma addSubsystem_run w x sp :
  x ≠ NULL → spec_heap w !! x = Some sp → subsystem sp ≠ NULL →
  addSubsystem Obj x w
  = Done tt (mkWorld Obj x true
               (<[x := mkSpec (subsystem sp) (deps sp) (head_of Obj w)]> (spec_heap w))
               (objs w) (mgr_status w) (trace w)).
Proof.
  intros Hx Hsp Howner. unfold addSubsystem, head_of.
  rewrite bind_run. cbn [get_world].
  assert (∀ w0 : World, spec_heap w0 = spec_heap w →
            (if decide (x = NULL) then mret tt else
             sp ← deref_spec Obj x;
             if decide (subsystem sp = NULL) then mret tt else
             w ← get_world Obj;
             (if decide (specs w ≠ NULL) then store_next Obj x (specs w)
              else store_next Obj x NULL) ;;
             modify Obj (with_specs Obj x)) w0
            = Done tt (with_specs Obj x
                 (with_spec_heap Obj
                    (<[x := mkSpec (subsystem sp) (deps sp) (specs w0)]> (spec_heap w0)) w0)))
    as Hrest.
  { intros w0 Hw0. rewrite decide_False by done.
    rewrite bind_run. unfold deref_spec at 1. rewrite Hw0, Hsp.
    rewrite decide_False by done.
    rewrite bind_run. cbn [get_world]. rewrite bind_run.
    unfold store_next.
    destruct (decide (specs w0 ≠ NULL)) as [Hs|Hs]; rewrite Hw0, Hsp; [done|].
    by destruct (decide (specs w0 = NULL)) as [->|]. }
  destruct (setup_flag w) eqn:Hflag.
  - rewrite bind_run. cbn [mret M_ret]. rewrite Hrest by done.
    destruct w; cbn in *. by subst.
  - rewrite bind_run. cbn [modify]. rewrite Hrest by done.
    by destruct w.
Qed.

(** Registration prepends: the list reads in the reverse of the order of
    the calls, and touches nothing but the [next] fields. *)
Lemma register_run order : ∀ w l,
  lseg (spec_heap w) (head_of Obj w) l →
  NoDup (order ++ l) →
  (∀ x, x ∈ order → x ≠ NULL ∧ ∃ sp, spec_heap w !! x = Some sp ∧ subsystem sp ≠ NULL) →
  ∃ w', register Obj order w = Done tt w'
        ∧ lseg (spec_heap w') (head_of Obj w') (rev order ++ l)
        ∧ (setup_flag w = true ∨ order ≠ [] → setup_flag w' = true)
        ∧ objs w' = objs w ∧ trace w' = trace w ∧ mgr_status w' = mgr_status w
        ∧ (∀ y sp, spec_heap w !! y = Some sp →
             ∃ n, spec_heap w' !! y = Some (mkSpec (subsystem sp) (deps sp) n)).
Proof.
  induction order as [|x order IH]; intros w l Hl Hnd Hall.
  - exists w. repeat split; try done.
    + by intros [?|?].
    + intros y [ow ds n] Hy. by exists n.
  - destruct (Hall x) as (Hx & sp & Hsp & Howner); [apply list_elem_of_here|].
    cbn [register foldr]. rewrite bind_run, (addSubsystem_run w x sp) by done.
    set (w1 := mkWorld Obj x true _ _ _ _).
    apply NoDup_cons in Hnd as [Hxl Hnd].
    destruct (IH w1 (x :: l)) as (w' & Hrun & Hl' & Hf & Ho & Ht & Hm & Hh).
    + cbn. split; [done|]. split; [done|]. eexists. split; [apply lookup_insert_eq|].
      cbn. apply lseg_insert_fresh; [done|]. intros ?. apply Hxl, elem_of_app. by right.
    + apply NoDup_app. apply NoDup_app in Hnd as (Hn1 & Hn2 & Hn3).
      split; [done|]. split; [|apply NoDup_cons; split; [|done]].
      * intros y Hy [->|Hyl]%elem_of_cons; [|by eapply Hn2].
        apply Hxl, elem_of_app. by left.
      * intros ?. apply Hxl, elem_of_app. by right.
    + intros y Hy. destruct (Hall y) as (Hy0 & spy & Hspy & Hyo);
        [by apply list_elem_of_further|]. split; [done|]. cbn.
      destruct (decide (x = y)) as [->|Hne].
      * rewrite lookup_insert_eq. eexists. split; [done|]. cbn. congruence.
      * rewrite lookup_insert_ne by done. eauto.
    + exists w'. fold (register Obj order). rewrite Hrun.
      split; [done|]. split; [cbn [rev]; by rewrite <- (assoc_L (++))|].
      split; [intros _; apply Hf; by left|].
      split; [done|]. split; [done|]. split; [done|].
      intros y spy Hy. destruct (decide (x = y)) as [->|Hne].
      * destruct (Hh y (mkSpec (subsystem sp) (deps sp) (head_of Obj w))) as [n Hn].
        { apply lookup_insert_eq. }
        exists n. rewrite Hn. cbn. congruence.
      * destruct (Hh y spy) as [n Hn]; [by cbn; rewrite lookup_insert_ne|]. eauto.
Qed.

Lemma lseg_head_not_null h p x l : lseg h p (x :: l) → p = x ∧ p ≠ NULL.
Proof. by intros (-> & ? & _). Qed.

Lemma lseg_elem_not_null h l : ∀ p x, lseg h p l → x ∈ l → x ≠ NULL.
Proof.
  induction l as [|y l IH]; intros p x Hl Hx; [by apply elem_of_nil in Hx|].
  destruct Hl as (-> & Hy & spy & Hh & Hl).
  apply elem_of_cons in Hx as [->|Hx]; [done|]. by eapply IH.
Qed.

(** Registration from scratch, as the constructors do it. *)
Lemma register_fresh order w :
  setup_flag w = false → order ≠ [] → NoDup order →
  (∀ x, x ∈ order → x ≠ NULL ∧ ∃ sp, spec_heap w !! x = Some sp ∧ subsystem sp ≠ NULL) →
  ∃ w', register Obj order w = Done tt w'
        ∧ lseg (spec_heap w') (specs w') (rev order) ∧ specs w' ≠ NULL
        ∧ objs w' = objs w ∧ trace w' = trace w ∧ mgr_status w' = mgr_status w
        ∧ (∀ y sp, spec_heap w !! y = Some sp →
             ∃ n, spec_heap w' !! y = Some (mkSpec (subsystem sp) (deps sp) n)).
Proof.
  intros Hflag Hne Hnd Hall.
  destruct (register_run order w []) as (w' & Hrun & Hl & Hf & Ho & Ht & Hm & Hh).
  - unfold head_of. by rewrite Hflag.
  - by rewrite app_nil_r.
  - done.
  - rewrite app_nil_r in Hl. unfold head_of in Hl. rewrite Hf in Hl by by right.
    exists w'. do 2 (split; [done|]). split; [|done].
    destruct (rev order) as [|x l] eqn:Hrev.
    + apply (f_equal (@rev _)) in Hrev. by rewrite rev_involutive in Hrev.
    + by apply lseg_head_not_null in Hl as [_ ?].
Qed.

Lemma find_from_lseg_short fuel needle w l p x sp :
  lseg (spec_heap w) p l →
  x ∈ l → spec_heap w !! x = Some sp → subsystem sp = needle →
  (∀ y spy, y ∈ l → spec_heap w !! y = Some spy → subsystem spy = needle → y = x) →
  find_from Obj fuel needle p w = Done x w ∨ find_from Obj fuel needle p w = OutOfFuel w.
Proof.
  revert p fuel. induction l as [|y l IH]; intros p fuel Hl Hx Hsp Hn Huniq.
  - by apply elem_of_nil in Hx.
  - destruct Hl as (-> & Hy & spy & Hh & Hl).
    destruct fuel as [|fuel]; [by right|]. cbn [find_from].
    rewrite decide_False by done. rewrite bind_run. unfold deref_spec. rewrite Hh.
    destruct (decide (subsystem spy = needle)) as [Heq|Hne].
    + left. f_equal. apply (Huniq y spy); [apply list_elem_of_here | done..].
    + apply elem_of_cons in Hx as [->|Hx]; [congruence|].
      apply IH; try done.
      intros z spz Hz. apply Huniq. by apply list_elem_of_further.
Qed.

Lemma milestones_app t1 t2 :
  milestones (t1 ++ t2) = milestones t1 ++ milestones t2.
Proof. apply filter_app. Qed.

(** *** A cycle of two *)

Section Cycle.

Variables a b sa sb : ptr.
Hypothesis Hab : a ≠ b.
Hypothesis Ha : a ≠ NULL.
Hypothesis Hb : b ≠ NULL.
Hypothesis Hsab : sa ≠ sb.

Local Abbreviation ok := (cycle_ok Obj a b sa sb).

Lemma cycle_find fuel w :
  ok w →
  (find fuel a w = Done sa w ∨ find fuel a w = OutOfFuel w)
  ∧ (find fuel b w = Done sb w ∨ find fuel b w = OutOfFuel w).
Proof.
  intros (_ & [na Hsa] & [nb Hsb] & l & Hl & Hperm).
  assert (∀ y, y ∈ l → y = sa ∨ y = sb) as Hin.
  { intros y Hy. rewrite Hperm in Hy. set_solver. }
  unfold findSpecBySubsystem. rewrite !bind_run. cbn [get_world]. split.
  - eapply find_from_lseg_short; [done| |done|done|].
    + rewrite Hperm. set_solver.
    + intros y spy Hy Hh Ho. destruct (Hin y Hy) as [->| ->]; [done|].
      rewrite Hsb in Hh. injection Hh as <-. done.
  - eapply find_from_lseg_short; [done| |done|done|].
    + rewrite Hperm. set_solver.
    + intros y spy Hy Hh Ho. destruct (Hin y Hy) as [->| ->]; [|done].
      rewrite Hsa in Hh. injection Hh as <-. cbn in Ho. congruence.
Qed.

(** Each call hands its own [depth] to the call for the first
    dependency, so below the bound the two specs keep calling each
    other: whatever the budget, the call is still running when the
    budget is gone, and no [setup()] or [start()] has been reached. *)
Lemma cycle_descend fuel : ∀ w target depth,
  ok w → depth < 8 →
  ∀ spec, spec = sa ∨ spec = sb →
  ∃ w', descend fuel spec target depth w = OutOfFuel w'
        ∧ ok w' ∧ objs w' = objs w ∧ mgr_status w' = mgr_status w
        ∧ milestones (trace w') = milestones (trace w).
Proof.
  induction fuel as [|fuel IH]; intros w target depth Hok Hd spec Hspec.
  - by exists w.
  - pose proof Hok as (Hspecs & [na Hsa] & [nb Hsb] & l & Hl & Hperm).
    assert (spec ≠ NULL) as Hnn.
    { assert (spec ∈ l) as Hin by (rewrite Hperm; set_solver).
      clear -Hl Hin. revert Hl Hin. generalize (specs w).
      induction l as [|y l IHl]; intros p Hl Hin; [by apply elem_of_nil in Hin|].
      destruct Hl as (-> & Hy & spy & Hh & Hl).
      apply elem_of_cons in Hin as [->|Hin]; [done|]. by eapply IHl. }
    set (w0 := with_trace (trace w ++ [EvCall spec target depth]) w).
    assert (ok w0) as Hok0 by done.
    assert (∀ d s, (d = a ∧ s = sa) ∨ (d = b ∧ s = sb) →
              ∃ w', for_deps Obj (λ d k, s ← find fuel d; descend fuel s target k)
                       [d] depth w0
                    = OutOfFuel w' ∧ ok w' ∧ objs w' = objs w
                      ∧ mgr_status w' = mgr_status w
                      ∧ milestones (trace w') = milestones (trace w)) as Hloop.
    { intros d s Hds. cbn [for_deps].
      assert (d ≠ NULL) by (destruct Hds as [[-> _]|[-> _]]; done).
      rewrite decide_False by done. rewrite decide_True by done.
      rewrite !bind_run.
      assert (find fuel d w0 = Done s w0 ∨ find fuel d w0 = OutOfFuel w0) as [Hf|Hf].
      { destruct (cycle_find fuel w0 Hok0) as [Hfa Hfb].
        destruct Hds as [[-> ->]|[-> ->]]; done. }
      - rewrite Hf. destruct (IH w0 target depth Hok0 Hd s) as (w' & -> & ? & ? & ? & Hm).
        { destruct Hds as [[_ ->]|[_ ->]]; auto. }
        exists w'. do 4 (split; [done|]).
        rewrite Hm. unfold w0. cbn. rewrite milestones_app. cbn. apply app_nil_r.
      - rewrite Hf. exists w0. do 4 (split; [done|]).
        unfold w0. cbn. rewrite milestones_app. cbn. apply app_nil_r. }
    destruct Hspec as [-> | ->].
    + rewrite (descend_unfold fuel w sa (mkSpec a [b] na)) by done. cbn [deps subsystem].
      destruct (Hloop b sb) as (w' & Hrun & ?); [by right|].
      exists w'. split; [|done]. unfold w0 in Hrun. by rewrite bind_run, Hrun.
    + rewrite (descend_unfold fuel w sb (mkSpec b [a] nb)) by done. cbn [deps subsystem].
      destruct (Hloop a sa) as (w' & Hrun & ?); [by left|].
      exists w'. split; [|done]. unfold w0 in Hrun. by rewrite bind_run, Hrun.
Qed.

Lemma cycle_bring_up fuel w target depth0 :
  ok w → depth0 < 8 →
  ∃ w', bring_up Obj obj_status vsetup vstart fuel depth0 target (specs w) w = OutOfFuel w'
        ∧ objs w' = objs w ∧ mgr_status w' = mgr_status w
        ∧ milestones (trace w') = milestones (trace w).
Proof.
  intros Hok Hd. destruct fuel as [|fuel]; [by exists w|].
  pose proof Hok as (Hspecs & [na Hsa] & [nb Hsb] & l & Hl & Hperm).
  assert (specs w = sa ∨ specs w = sb) as Hhead.
  { destruct l as [|x l]; [by apply Permutation_nil_cons in Hperm|].
    apply lseg_head_not_null in Hl as [-> _].
    assert (x ∈ x :: l) as Hin by apply list_elem_of_here.
    rewrite Hperm in Hin. set_solver. }
  cbn [bring_up]. rewrite decide_False by done. rewrite bind_run.
  destruct (cycle_descend fuel w target depth0 Hok Hd (specs w) Hhead)
    as (w' & Hrun & _ & ? & ? & ?).
  exists w'. split; [|done]. unfold deref_spec at 1.
  destruct Hhead as [Hh|Hh]; rewrite Hh in *; [rewrite Hsa|rewrite Hsb];
    cbn [subsystem]; rewrite decide_False by done; by rewrite bind_run, Hrun.
Qed.

End Cycle.

(** C1, on the code. Two subsystems that depend on each other are
    registered, in either order, and the manager's [setup()] is called
    with a default [depth] below the bound.  The call does not come back:
    for every budget it is still running when the budget is used up, no
    [setup()] of a subsystem has been called, both objects are as they
    were, and the manager has not reached the line that sets its own
    status. *)
Theorem cycle_setup_never_returns a b sa sb oa ob order depth0 fuel :
  a ≠ b → a ≠ NULL → b ≠ NULL →
  sa ≠ sb → sa ≠ NULL → sb ≠ NULL →
  order ≡ₚ [sa; sb] →
  depth0 < 8 →
  ∃ w, (register Obj order ;; setup Obj obj_status vsetup vstart fuel depth0)
         (cycle_world Obj a b sa sb oa ob) = OutOfFuel w
       ∧ objs w = objs (cycle_world Obj a b sa sb oa ob)
       ∧ milestones (trace w) = []
       ∧ mgr_status w = INIT.
Proof.
  intros Hab Ha Hb Hsab Hsa Hsb Hperm Hd.
  set (w0 := cycle_world Obj a b sa sb oa ob).
  assert (spec_heap w0 !! sa = Some (mkSpec a [b] NULL)) as Hha.
  { apply lookup_insert_eq. }
  assert (spec_heap w0 !! sb = Some (mkSpec b [a] NULL)) as Hhb.
  { cbn. rewrite lookup_insert_ne by done. apply lookup_insert_eq. }
  destruct (register_fresh order w0) as (w1 & Hreg & Hl & Hspecs & Ho & Ht & Hm & Hh).
  - done.
  - intros ->. by apply Permutation_nil_cons in Hperm.
  - rewrite Hperm. apply NoDup_cons. split; [set_solver|]. apply NoDup_singleton.
  - intros x Hx. rewrite Hperm in Hx.
    apply elem_of_cons in Hx as [->|Hx]; [eauto|].
    apply list_elem_of_singleton in Hx as ->. eauto.
  - assert (cycle_ok Obj a b sa sb w1) as Hok.
    { split; [done|]. split; [apply (Hh sa _ Hha)|]. split; [apply (Hh sb _ Hhb)|].
      exists (rev order). split; [done|]. by rewrite <- Permutation_rev. }
    destruct (cycle_bring_up a b sa sb Hab Ha Hb Hsab fuel w1 READY depth0 Hok Hd)
      as (w2 & Hrun & Ho2 & Hm2 & Ht2).
    exists w2. rewrite bind_run, Hreg. unfold setup. rewrite bind_run. cbn [get_world].
    rewrite bind_run, Hrun. split; [done|]. split; [congruence|].
    split; [by rewrite Ht2, Ht|]. by rewrite Hm2, Hm.
Qed.

(** *** What the status check does to the statuses *)

Local Abbreviation step := (owner_step Obj obj_status vsetup vstart).
Local Abbreviation stat := (Manager.stat Obj obj_status).

Lemma step_frame p target w :
  specs (step p target w) = specs w
  ∧ spec_heap (step p target w) = spec_heap w
  ∧ mgr_status (step p target w) = mgr_status w.
Proof.
  unfold owner_step. destruct (objs w !! p); [|done]. by repeat case_decide.
Qed.

Lemma step_settled p target w :
  stat w p = Some target → step p target w = w.
Proof.
  unfold Manager.stat, owner_step. destruct (objs w !! p) as [o|]; [|done].
  cbn. intros [= Ho]. repeat case_decide; destruct_and?; congruence.
Qed.

Lemma step_advance p target w :
  target = READY ∨ target = RUNNING →
  (∀ o, obj_status o = INIT → obj_status (vsetup p o) = READY) →
  (∀ o, obj_status o = READY → obj_status (vstart p o) = RUNNING) →
  stat w p = Some (before target) →
  stat (step p target w) p = Some target
  ∧ (∀ q, q ≠ p → stat (step p target w) q = stat w q)
  ∧ milestones (trace (step p target w))
    = milestones (trace w) ++ [milestone_of target p].
Proof.
  intros Ht Hsetup Hstart. unfold Manager.stat, owner_step.
  destruct (objs w !! p) as [o|] eqn:Hp; [|done]. cbn. intros [= Ho].
  destruct Ht as [-> | ->]; cbn in Ho.
  - rewrite decide_True by done. cbn. rewrite lookup_insert_eq. cbn.
    split; [by rewrite Hsetup|]. split; [|by rewrite milestones_app].
    intros q Hq. by rewrite lookup_insert_ne.
  - rewrite decide_False by (by intros [? _]). rewrite decide_True by done. cbn.
    rewrite lookup_insert_eq. cbn.
    split; [by rewrite Hstart|]. split; [|by rewrite milestones_app].
    intros q Hq. by rewrite lookup_insert_ne.
Qed.

(** *** The chain *)

Section Chain.

Variables a b c sa sb sc : ptr.
Hypothesis Hab : a ≠ b.
Hypothesis Hac : a ≠ c.
Hypothesis Hbc : b ≠ c.
Hypothesis Ha : a ≠ NULL.
Hypothesis Hb : b ≠ NULL.
Hypothesis Hc : c ≠ NULL.

Variable target : Status.
Hypothesis Htarget : target = READY ∨ target = RUNNING.
Hypothesis Hsetup : ∀ p o, p ∈ [a; b; c] →
  obj_status o = INIT → obj_status (vsetup p o) = READY.
Hypothesis Hstart : ∀ p o, p ∈ [a; b; c] →
  obj_status o = READY → obj_status (vstart p o) = RUNNING.

Variable base : list Event.

Local Abbreviation ok := (chain_ok Obj a b c sa sb sc).
Local Abbreviation ph := (phase Obj obj_status a b c target base).
Local Abbreviation frame := (Manager.frame Obj).

Lemma frame_trans w1 w2 w3 : frame w1 w2 → frame w2 w3 → frame w1 w3.
Proof. intros (? & ? & ?) (? & ? & ?). repeat split; congruence. Qed.

Lemma ok_same w w' :
  specs w' = specs w → spec_heap w' = spec_heap w → ok w → ok w'.
Proof. intros Hs Hh. unfold chain_ok. by rewrite Hs, Hh. Qed.

Lemma ok_frame w w' : frame w w' → ok w → ok w'.
Proof. intros (Hs & Hh & _). by apply ok_same. Qed.

Lemma frame_enter spec d w : frame w (enter Obj spec target d w).
Proof. done. Qed.

Lemma frame_step p w : frame w (step p target w).
Proof. apply step_frame. Qed.

Lemma phase_enter k w spec d : ph k w → ph k (enter Obj spec target d w).
Proof.
  intros (? & ? & ? & Hm). do 3 (split; [done|]).
  unfold enter. cbn. rewrite milestones_app. cbn. by rewrite app_nil_r.
Qed.

(** The status check at the [i]-th subsystem of [C, B, A], when the
    ones before it have reached the milestone. *)
Lemma phase_step i p k w :
  [c; b; a] !! i = Some p → (i ≤ k ≤ 3)%nat →
  ph k w → ph (k `max` S i) (step p target w).
Proof.
  intros Hi Hk (Hsc & Hsb & Hsa & Hm).
  destruct (decide (k = i)) as [->|Hne].
  - assert (stat w p = Some (before target)) as Hp.
    { destruct i as [|[|[|]]]; cbn in Hi; try done; injection Hi as <-; done. }
    destruct (step_advance p target w) as (Hp' & Hq' & Hm'); try done.
    { intros o. apply Hsetup. apply list_elem_of_lookup_2 in Hi. set_solver. }
    { intros o. apply Hstart. apply list_elem_of_lookup_2 in Hi. set_solver. }
    replace (i `max` S i)%nat with (S i) by lia.
    destruct i as [|[|[|]]]; cbn in Hi; try done; injection Hi as <-;
      (split; [|split; [|split]]);
      rewrite ?Hp', ?Hq', ?Hm', ?Hm by done; cbn; try done;
      by rewrite <- (assoc_L (++)).
  - replace (k `max` S i)%nat with k by lia.
    rewrite step_settled; [done|].
    destruct i as [|[|[|]]]; cbn in Hi; try done; injection Hi as <-.
    + by rewrite Hsc, decide_True by lia.
    + by rewrite Hsb, decide_True by lia.
    + by rewrite Hsa, decide_True by lia.
Qed.

Lemma chain_find fuel w :
  ok w → (3 ≤ fuel)%nat →
  find fuel b w = Done sb w ∧ find fuel c w = Done sc w.
Proof.
  intros (_ & [na Hsa] & [nb Hsb] & [nc Hsc] & l & Hl & Hperm) Hfuel.
  assert (∀ y, y ∈ l → y = sa ∨ y = sb ∨ y = sc) as Hin.
  { intros y Hy. rewrite Hperm in Hy. set_solver. }
  assert (length l = 3%nat) as Hlen by by rewrite Hperm.
  split.
  - eapply find_lseg; [done| |done|done| |lia].
    + rewrite Hperm. set_solver.
    + intros y spy Hy Hh Ho. destruct (Hin y Hy) as [->|[->| ->]]; [|done|].
      * rewrite Hsa in Hh. injection Hh as <-. cbn in Ho. congruence.
      * rewrite Hsc in Hh. injection Hh as <-. cbn in Ho. congruence.
  - eapply find_lseg; [done| |done|done| |lia].
    + rewrite Hperm. set_solver.
    + intros y spy Hy Hh Ho. destruct (Hin y Hy) as [->|[->| ->]]; [| |done].
      * rewrite Hsa in Hh. injection Hh as <-. cbn in Ho. congruence.
      * rewrite Hsb in Hh. injection Hh as <-. cbn in Ho. congruence.
Qed.

Lemma chain_spec_not_null w x : ok w → x ∈ [sa; sb; sc] → x ≠ NULL.
Proof.
  intros (_ & _ & _ & _ & l & Hl & Hperm) Hx. rewrite <- Hperm in Hx.
  by eapply lseg_elem_not_null.
Qed.

Lemma phase_present k w p : ph k w → p ∈ [a; b; c] → ∃ o, objs w !! p = Some o.
Proof.
  intros (Hsc & Hsb & Hsa & _) Hp. unfold Manager.stat in *.
  assert (p = a ∨ p = b ∨ p = c) as [->|[->| ->]] by set_solver.
  - destruct (objs w !! a); [eauto|done].
  - destruct (objs w !! b); [eauto|done].
  - destruct (objs w !! c); [eauto|done].
Qed.

(** One call on the spec of [C]. *)
Lemma descend_c fuel w k depth :
  ok w → ph k w → (k ≤ 3)%nat →
  ∃ w', descend (S fuel) sc target depth w = Done tt w'
        ∧ frame w w' ∧ ph (k `max` 1) w'.
Proof.
  intros Hok Hph Hk. pose proof Hok as (Hspecs & _ & _ & [nc Hsc] & _).
  assert (sc ≠ NULL) by (eapply chain_spec_not_null; [done|set_solver]).
  rewrite (descend_unfold fuel w sc (mkSpec c [] nc)) by done.
  fold (enter Obj sc target depth w). cbn [deps subsystem for_deps].
  rewrite bind_run. cbn [mret M_ret].
  destruct (phase_present k (enter Obj sc target depth w) c) as [o Ho];
    [by apply phase_enter | set_solver |].
  rewrite (advance_run _ o) by done. eexists. split; [done|]. split.
  - eapply frame_trans; [apply frame_enter | apply frame_step].
  - apply (phase_step 0); [done | lia | by apply phase_enter].
Qed.

(** One call on the spec of [B]: [C] is seen to first. *)
Lemma descend_b fuel w k depth :
  ok w → ph k w → (k ≤ 3)%nat → depth < 8 → (3 ≤ fuel)%nat →
  ∃ w', descend (S fuel) sb target depth w = Done tt w'
        ∧ frame w w' ∧ ph (k `max` 2) w'.
Proof.
  intros Hok Hph Hk Hd Hfuel. pose proof Hok as (Hspecs & _ & [nb Hsb] & _).
  assert (sb ≠ NULL) by (eapply chain_spec_not_null; [done|set_solver]).
  rewrite (descend_unfold fuel w sb (mkSpec b [c] nb)) by done.
  fold (enter Obj sb target depth w). set (w0 := enter Obj sb target depth w).
  assert (ok w0) as Hok0 by (eapply ok_frame; [apply frame_enter|done]).
  assert (ph k w0) as Hph0 by by apply phase_enter.
  cbn [deps subsystem for_deps].
  rewrite decide_False by done. rewrite decide_True by done.
  rewrite !bind_run. destruct (chain_find fuel w0) as [_ ->]; [done..|].
  destruct fuel as [|fuel]; [lia|].
  destruct (descend_c fuel w0 k depth) as (w1 & -> & Hf1 & Hph1); [done..|].
  cbn [mret M_ret].
  destruct (phase_present _ w1 b Hph1) as [o Ho]; [set_solver|].
  rewrite (advance_run _ o) by done. eexists. split; [done|]. split.
  - eapply frame_trans; [|apply frame_step].
    eapply frame_trans; [apply frame_enter | done].
  - replace (k `max` 2)%nat with ((k `max` 1) `max` 2)%nat by lia.
    apply (phase_step 1); [done | lia | done].
Qed.

(** One call on the spec of [A]: [B], and [C] through it, are seen to
    first. *)
Lemma descend_a fuel w k depth :
  ok w → ph k w → (k ≤ 3)%nat → depth < 8 → (4 ≤ fuel)%nat →
  ∃ w', descend (S fuel) sa target depth w = Done tt w'
        ∧ frame w w' ∧ ph 3 w'.
Proof.
  intros Hok Hph Hk Hd Hfuel. pose proof Hok as (Hspecs & [na Hsa] & _).
  assert (sa ≠ NULL) by (eapply chain_spec_not_null; [done|set_solver]).
  rewrite (descend_unfold fuel w sa (mkSpec a [b] na)) by done.
  fold (enter Obj sa target depth w). set (w0 := enter Obj sa target depth w).
  assert (ok w0) as Hok0 by (eapply ok_frame; [apply frame_enter|done]).
  assert (ph k w0) as Hph0 by by apply phase_enter.
  cbn [deps subsystem for_deps].
  rewrite decide_False by done. rewrite decide_True by done.
  rewrite !bind_run. destruct (chain_find fuel w0) as [-> _]; [done|lia|].
  destruct fuel as [|fuel]; [lia|].
  destruct (descend_b fuel w0 k depth) as (w1 & -> & Hf1 & Hph1); [done..|lia|].
  cbn [mret M_ret].
  destruct (phase_present _ w1 a Hph1) as [o Ho]; [set_solver|].
  rewrite (advance_run _ o) by done. eexists. split; [done|]. split.
  - eapply frame_trans; [|apply frame_step].
    eapply frame_trans; [apply frame_enter | done].
  - replace 3%nat with ((k `max` 2) `max` 3)%nat by lia.
    apply (phase_step 2); [done | lia | done].
Qed.

Lemma descend_chain x fuel w k depth :
  ok w → ph k w → (k ≤ 3)%nat → depth < 8 → (4 ≤ fuel)%nat →
  x ∈ [sa; sb; sc] →
  ∃ w' k', descend (S fuel) x target depth w = Done tt w'
           ∧ frame w w' ∧ ph k' w' ∧ (k ≤ k' ≤ 3)%nat ∧ (x = sa → k' = 3%nat).
Proof.
  intros Hok Hph Hk Hd Hfuel Hx. destruct (decide (x = sa)) as [->|Hne].
  - destruct (descend_a fuel w k depth) as (w' & ? & ? & ?); [done..|].
    exists w', 3%nat. do 3 (split; [done|]). split; [lia|done].
  - assert (x = sb ∨ x = sc) as [-> | ->] by set_solver.
    + destruct (descend_b fuel w k depth) as (w' & ? & ? & ?); [done..|lia|].
      exists w', (k `max` 2)%nat. do 3 (split; [done|]). split; [lia|done].
    + destruct (descend_c fuel w k depth) as (w' & ? & ? & ?); [done..|].
      exists w', (k `max` 1)%nat. do 3 (split; [done|]). split; [lia|done].
Qed.

Lemma bring_up_S fuel depth0 spec :
  bring_up Obj obj_status vsetup vstart (S fuel) depth0 target spec
  = (if decide (spec = NULL) then mret tt else
     sp ← deref_spec Obj spec;
     if decide (subsystem sp = NULL) then mret tt else
     descend fuel spec target depth0 ;;
     sp ← deref_spec Obj spec;
     bring_up Obj obj_status vsetup vstart fuel depth0 target (next sp)).
Proof. reflexivity. Qed.

(** The loop of [setup()] and [start()] over the list, or over the
    rest of it. *)
Lemma bring_up_chain depth0 l : ∀ p fuel w k,
  lseg (spec_heap w) p l → (∀ x, x ∈ l → x ∈ [sa; sb; sc]) →
  ok w → ph k w → (k ≤ 3)%nat → depth0 < 8 → (length l + 5 ≤ fuel)%nat →
  ∃ w' k', bring_up Obj obj_status vsetup vstart fuel depth0 target p w = Done tt w'
           ∧ frame w w' ∧ ph k' w' ∧ (k ≤ k' ≤ 3)%nat ∧ (sa ∈ l → k' = 3%nat).
Proof.
  induction l as [|x l IH]; intros p fuel w k Hl Hsub Hok Hph Hk Hd Hfuel.
  - cbn in Hl. subst p. destruct fuel as [|fuel]; [cbn in Hfuel; lia|].
    exists w, k. cbn. do 3 (split; [done|]). split; [lia|].
    intros []%elem_of_nil.
  - destruct Hl as (-> & Hx & sp & Hh & Hl). cbn in Hfuel.
    destruct fuel as [|fuel]; [lia|]. rewrite bring_up_S.
    destruct fuel as [|fuel]; [lia|].
    assert (x ∈ [sa; sb; sc]) as Hin by apply Hsub, list_elem_of_here.
    assert (subsystem sp ≠ NULL) as Howner.
    { destruct Hok as (_ & [na Hsa] & [nb Hsb] & [nc Hsc] & _).
      assert (x = sa ∨ x = sb ∨ x = sc) as [->|[->| ->]] by set_solver;
        [rewrite Hsa in Hh|rewrite Hsb in Hh|rewrite Hsc in Hh];
        by injection Hh as <-. }
    rewrite decide_False by done.
    rewrite bind_run. unfold deref_spec at 1. rewrite Hh.
    rewrite decide_False by done. rewrite bind_run.
    destruct (descend_chain x fuel w k depth0)
      as (w1 & k1 & -> & Hf1 & Hph1 & Hk1 & Hsa1); [done..|lia|done|].
    pose proof Hf1 as (Hs1 & Hh1 & _).
    rewrite bind_run. unfold deref_spec at 1. rewrite Hh1, Hh.
    destruct (IH (next sp) (S fuel) w1 k1)
      as (w2 & k2 & -> & Hf2 & Hph2 & Hk2 & Hsa2); try done.
    + by rewrite Hh1.
    + intros y Hy. by apply Hsub, list_elem_of_further.
    + by eapply ok_frame.
    + lia.
    + lia.
    + exists w2, k2. split; [done|]. split; [by eapply frame_trans|].
      split; [done|]. split; [lia|].
      intros [->|Hy]%elem_of_cons; [|auto]. specialize (Hsa1 eq_refl). lia.
Qed.

End Chain.

(** C5. [A] depends on [B] and [B] on [C]; the three subsystems are in
    [INIT], their [setup()] takes them from [INIT] to [READY] and their
    [start()] from [READY] to [RUNNING]; their specs are registered in any
    of the six orders, and the default [depth] is below the bound.  Then
    the manager's [setup()] followed by its [start()] returns, all three
    are [RUNNING], and the virtual methods were called in the order
    [setup()] of [C], of [B], of [A], then [start()] of [C], of [B], of
    [A]. *)
Theorem chain_setup_then_start a b c sa sb sc oa ob oc order depth0 fuel :
  NoDup [a; b; c] → NULL ∉ [a; b; c] →
  NoDup [sa; sb; sc] → NULL ∉ [sa; sb; sc] →
  obj_status oa = INIT → obj_status ob = INIT → obj_status oc = INIT →
  (∀ p o, p ∈ [a; b; c] → obj_status o = INIT → obj_status (vsetup p o) = READY) →
  (∀ p o, p ∈ [a; b; c] → obj_status o = READY → obj_status (vstart p o) = RUNNING) →
  order ≡ₚ [sa; sb; sc] →
  depth0 < 8 →
  (8 ≤ fuel)%nat →
  ∃ w, (register Obj order ;;
        setup Obj obj_status vsetup vstart fuel depth0 ;;
        start Obj obj_status vsetup vstart fuel depth0)
         (chain_world Obj a b c sa sb sc oa ob oc) = Done RUNNING w
       ∧ stat w a = Some RUNNING ∧ stat w b = Some RUNNING ∧ stat w c = Some RUNNING
       ∧ milestones (trace w)
         = [EvSetup c; EvSetup b; EvSetup a; EvStart c; EvStart b; EvStart a].
Proof.
  intros Hnd Hnn Hsnd Hsnn Hoa Hob Hoc Hsetup Hstart Hperm Hd Hfuel.
  assert (a ≠ b ∧ a ≠ c ∧ b ≠ c) as (Hab & Hac & Hbc).
  { rewrite !NoDup_cons, !not_elem_of_cons in Hnd. naive_solver. }
  assert (a ≠ NULL ∧ b ≠ NULL ∧ c ≠ NULL) as (Ha & Hb & Hc).
  { rewrite !not_elem_of_cons in Hnn. naive_solver. }
  assert (sa ≠ sb ∧ sa ≠ sc ∧ sb ≠ sc) as (Hsab & Hsac & Hsbc).
  { rewrite !NoDup_cons, !not_elem_of_cons in Hsnd. naive_solver. }
  assert (sa ≠ NULL ∧ sb ≠ NULL ∧ sc ≠ NULL) as (Hsa & Hsb & Hsc).
  { rewrite !not_elem_of_cons in Hsnn. naive_solver. }
  set (w0 := chain_world Obj a b c sa sb sc oa ob oc).
  assert (spec_heap w0 !! sa = Some (mkSpec a [b] NULL)) as Hha.
  { apply lookup_insert_eq. }
  assert (spec_heap w0 !! sb = Some (mkSpec b [c] NULL)) as Hhb.
  { cbn. rewrite lookup_insert_ne by done. apply lookup_insert_eq. }
  assert (spec_heap w0 !! sc = Some (mkSpec c [] NULL)) as Hhc.
  { cbn. rewrite !lookup_insert_ne by done. apply lookup_insert_eq. }
  destruct (register_fresh order w0) as (w1 & Hreg & Hl & Hspecs & Ho & Ht & Hm & Hh).
  { done. }
  { intros ->. by apply Permutation_nil_cons in Hperm. }
  { by rewrite Hperm. }
  { intros x Hx. rewrite Hperm in Hx.
    assert (x = sa ∨ x = sb ∨ x = sc) as [->|[->| ->]] by set_solver; eauto. }
  assert (chain_ok Obj a b c sa sb sc w1) as Hok.
  { split; [done|]. split; [apply (Hh sa _ Hha)|]. split; [apply (Hh sb _ Hhb)|].
    split; [apply (Hh sc _ Hhc)|].
    exists (rev order). split; [done|]. by rewrite <- Permutation_rev. }
  assert (∀ x, x ∈ rev order → x ∈ [sa; sb; sc]) as Hsub.
  { intros x. by rewrite <- Permutation_rev, Hperm. }
  assert (sa ∈ rev order) as Hin.
  { rewrite <- Permutation_rev, Hperm. set_solver. }
  assert (length (rev order) = 3%nat) as Hlen.
  { by rewrite <- Permutation_rev, Hperm. }
  (* setup() *)
  assert (phase Obj obj_status a b c READY [] 0 w1) as Hph1.
  { unfold phase, Manager.stat. rewrite Ho. cbn.
    rewrite lookup_insert_eq.
    rewrite (lookup_insert_ne _ a b), lookup_insert_eq by done.
    rewrite (lookup_insert_ne _ a c), (lookup_insert_ne _ b c), lookup_insert_eq by done.
    cbn. rewrite Hoa, Hob, Hoc, Ht. done. }
  destruct (bring_up_chain a b c sa sb sc Hab Hac Hbc Ha Hb Hc READY
              (or_introl eq_refl) Hsetup Hstart [] depth0 (rev order)
              (specs w1) fuel w1 0%nat)
    as (w2 & k2 & Hrun2 & Hf2 & Hph2 & Hk2 & Hsa2); try done; try lia.
  rewrite (Hsa2 Hin) in Hph2. clear Hsa2 Hk2 k2.
  set (w3 := with_mgr_status Obj READY w2).
  (* start() *)
  assert (chain_ok Obj a b c sa sb sc w3) as Hok3.
  { destruct Hf2 as (? & ? & ?). by apply (ok_same a b c sa sb sc w1). }
  assert (phase Obj obj_status a b c RUNNING [EvSetup c; EvSetup b; EvSetup a] 0 w3)
    as Hph3.
  { destruct Hph2 as (Hc2 & Hb2 & Ha2 & Hm2). by repeat split. }
  assert (lseg (spec_heap w3) (specs w3) (rev order)) as Hl3.
  { destruct Hf2 as (Hs & Hhp & _). cbn. by rewrite Hs, Hhp. }
  destruct (bring_up_chain a b c sa sb sc Hab Hac Hbc Ha Hb Hc RUNNING
              (or_intror eq_refl) Hsetup Hstart [EvSetup c; EvSetup b; EvSetup a]
              depth0 (rev order) (specs w3) fuel w3 0%nat)
    as (w4 & k4 & Hrun4 & Hf4 & Hph4 & Hk4 & Hsa4); try done; try lia.
  rewrite (Hsa4 Hin) in Hph4. clear Hsa4 Hk4 k4.
  exists (with_mgr_status Obj RUNNING w4).
  split.
  - rewrite bind_run, Hreg. rewrite bind_run. unfold setup at 1.
    rewrite bind_run. cbn [get_world]. rewrite bind_run, Hrun2.
    rewrite bind_run. cbn [modify]. rewrite bind_run. cbn [get_world mret M_ret].
    fold w3. unfold start. rewrite bind_run. cbn [get_world]. rewrite bind_run, Hrun4.
    rewrite bind_run. cbn [modify]. rewrite bind_run. by cbn [get_world mret M_ret].
  - destruct Hph4 as (Hc4 & Hb4 & Ha4 & Hm4). by repeat split.
Qed.

End ManagerFacts.

(** *** The manager on concrete subsystems *)

(** C2, as the claim has it, fails: [A] depends on [B], both are in
    [INIT], and the call on the spec of [A] comes with [depth = 9].  It
    makes no nested call for [B], but it does not return at once either:
    it calls the [setup()] of [A], which takes [A] to [READY] while [B] is
    still in [INIT]. *)
Lemma descend_beyond_bound_calls_setup :
  8 < 9
  ∧ ∃ w', Demo.descend 1 11%nat READY 9 (Demo.pair INIT INIT) = Manager.Done tt w'
          ∧ Manager.trace w' = [Manager.EvCall 11 READY 9; Manager.EvSetup 1]
          ∧ Manager.objs w' !! 1%nat = Some (Base.mkBase READY)
          ∧ Manager.objs w' !! 2%nat = Some (Base.mkBase INIT).
Proof.
  split; [lia|]. eexists. split; [vm_compute; reflexivity|]. by vm_compute.
Qed.

Lemma descend_at_depth_bound_witness :
  8 ≤ 9
  ∧ Manager.specs (Demo.pair INIT INIT) ≠ NULL ∧ 11%nat ≠ NULL
  ∧ Manager.spec_heap (Demo.pair INIT INIT) !! 11%nat = Some (Manager.mkSpec 1 [2%nat] NULL)
  ∧ 1%nat ≠ NULL
  ∧ Manager.objs (Demo.pair INIT INIT) !! 1%nat = Some (Base.mkBase INIT)
  ∧ Demo.descend 3 11%nat READY 9 (Demo.pair INIT INIT)
    = Manager.Done tt
        (Manager.with_trace [Manager.EvCall 11 READY 9; Manager.EvSetup 1]
           (Manager.with_objs
              (<[1%nat := Base.mkBase READY]> (Manager.objs (Demo.pair INIT INIT)))
              (Demo.pair INIT INIT))).
Proof.
  do 5 (split; [by vm_compute|]). split; [by vm_compute|].
  apply (descend_at_depth_bound Demo.Obj Base.getStatus Demo.vsetup Demo.vstart
           2 (Demo.pair INIT INIT) 11%nat (Manager.mkSpec 1 [2%nat] NULL)
           (Base.mkBase INIT) READY 9);
    by vm_compute.
Defined.

(** C3, as the claim has it, fails: [A] is [READY] already and the target
    is [READY], yet the call on the spec of [A] goes into the dependency
    [B] and has [B] set up before it looks at the status of [A]; and the
    nested call gets the [depth] of its caller, 0, not 1. *)
Lemma settled_owner_still_recurses :
  Manager.stat Demo.Obj Base.getStatus (Demo.pair READY INIT) 1%nat = Some READY
  ∧ ∃ w', Demo.descend 5 11%nat READY 0 (Demo.pair READY INIT) = Manager.Done tt w'
          ∧ Manager.trace w'
            = [Manager.EvCall 11 READY 0; Manager.EvCall 12 READY 0; Manager.EvSetup 2]
          ∧ Manager.objs w' !! 2%nat = Some (Base.mkBase READY).
Proof.
  split; [by vm_compute|]. eexists. split; [vm_compute; reflexivity|]. by vm_compute.
Qed.

Lemma status_check_follows_recursion_witness :
  Manager.specs (Demo.pair READY INIT) ≠ NULL ∧ 11%nat ≠ NULL
  ∧ Manager.spec_heap (Demo.pair READY INIT) !! 11%nat = Some (Manager.mkSpec 1 [2%nat] NULL)
  ∧ 1%nat ≠ NULL
  ∧ Demo.descend 5 11%nat READY 0 (Demo.pair READY INIT)
    = Manager.Done tt
        (Manager.with_trace
           [Manager.EvCall 11 READY 0; Manager.EvCall 12 READY 0; Manager.EvSetup 2]
           (Manager.with_objs
              (<[2%nat := Base.mkBase READY]> (Manager.objs (Demo.pair READY INIT)))
              (Demo.pair READY INIT))).
Proof.
  do 4 (split; [by vm_compute|]).
  destruct (status_check_follows_recursion Demo.Obj Base.getStatus Demo.vsetup Demo.vstart
              4 (Demo.pair READY INIT) 11%nat (Manager.mkSpec 1 [2%nat] NULL) READY 0)
    as (Hdone & _); [by vm_compute..|].
  apply (Hdone _ (Base.mkBase READY)); [by vm_compute | by vm_compute | by left].
Defined.

Lemma terminal_status_is_kept_witness :
  Manager.spec_heap (Demo.pair FAULT INIT) !! 11%nat = Some (Manager.mkSpec 1 [2%nat] NULL)
  ∧ Manager.objs (Demo.pair FAULT INIT) !! 1%nat = Some (Base.mkBase FAULT)
  ∧ Manager.terminal FAULT
  ∧ let w' := Manager.world_of (Demo.descend 5 11%nat READY 0 (Demo.pair FAULT INIT)) in
    Base.getStatus <$> Manager.objs w' !! 1%nat = Some FAULT
    ∧ Manager.objs w' !! 1%nat = Some (Base.mkBase FAULT)
    ∧ ∃ evs, Manager.trace w' = Manager.trace (Demo.pair FAULT INIT) ++ evs
             ∧ Forall (λ e, ¬ Manager.owner_event 1 e) evs.
Proof.
  split; [by vm_compute|]. split; [by vm_compute|]. split; [by left|].
  apply (terminal_status_is_kept Demo.Obj Base.getStatus Demo.vsetup Demo.vstart
           5 (Demo.pair FAULT INIT) 11%nat (Manager.mkSpec 1 [2%nat] NULL)
           (Base.mkBase FAULT) READY 0); [by vm_compute | by vm_compute | by left].
Defined.

Lemma cycle_setup_never_returns_witness :
  (1%nat ≠ 2%nat ∧ 1%nat ≠ NULL ∧ 2%nat ≠ NULL)
  ∧ (11%nat ≠ 12%nat ∧ 11%nat ≠ NULL ∧ 12%nat ≠ NULL)
  ∧ [11; 12]%nat ≡ₚ [11; 12]%nat ∧ 0 < 8
  ∧ ∃ w, (Manager.register Demo.Obj [11; 12]%nat ;; Demo.setup 40 0)
           (Manager.cycle_world Demo.Obj 1 2 11 12 Base.construct Base.construct)
         = Manager.OutOfFuel w
         ∧ Manager.objs w
           = Manager.objs (Manager.cycle_world Demo.Obj 1 2 11 12 Base.construct Base.construct)
         ∧ Manager.milestones (Manager.trace w) = []
         ∧ Manager.mgr_status w = INIT.
Proof.
  split; [by repeat split|]. split; [by repeat split|]. split; [done|]. split; [lia|].
  apply (cycle_setup_never_returns Demo.Obj Base.getStatus Demo.vsetup Demo.vstart
           1 2 11 12 Base.construct Base.construct [11; 12]%nat 0 40)%nat;
    try done; lia.
Defined.

Lemma chain_setup_then_start_witness :
  NoDup [1; 2; 3]%nat ∧ (NULL ∉ [1; 2; 3]%nat)
  ∧ NoDup [11; 12; 13]%nat ∧ (NULL ∉ [11; 12; 13]%nat)
  ∧ ([12; 13; 11]%nat ≡ₚ [11; 12; 13]%nat)
  ∧ 0 < 8 ∧ (8 ≤ 8)%nat
  ∧ ∃ w, (Manager.register Demo.Obj [12; 13; 11]%nat ;; Demo.setup 8 0 ;; Demo.start 8 0)
           (Manager.chain_world Demo.Obj 1 2 3 11 12 13
              Base.construct Base.construct Base.construct)
         = Manager.Done RUNNING w
         ∧ Manager.stat Demo.Obj Base.getStatus w 1%nat = Some RUNNING
         ∧ Manager.stat Demo.Obj Base.getStatus w 2%nat = Some RUNNING
         ∧ Manager.stat Demo.Obj Base.getStatus w 3%nat = Some RUNNING
         ∧ Manager.milestones (Manager.trace w)
           = [Manager.EvSetup 3; Manager.EvSetup 2; Manager.EvSetup 1;
              Manager.EvStart 3; Manager.EvStart 2; Manager.EvStart 1].
Proof.
  assert (NoDup [1; 2; 3]%nat) as H1 by (apply (bool_decide_unpack _); by vm_compute).
  assert (NULL ∉ [1; 2; 3]%nat) as H2 by (apply (bool_decide_unpack _); by vm_compute).
  assert (NoDup [11; 12; 13]%nat) as H3 by (apply (bool_decide_unpack _); by vm_compute).
  assert (NULL ∉ [11; 12; 13]%nat) as H4 by (apply (bool_decide_unpack _); by vm_compute).
  assert ([12; 13; 11]%nat ≡ₚ [11; 12; 13]%nat) as H5.
  { transitivity [12; 11; 13]%nat; [apply perm_skip, perm_swap | apply perm_swap]. }
  do 5 (split; [done|]). split; [lia|]. split; [lia|].
  apply (chain_setup_then_start Demo.Obj Base.getStatus Demo.vsetup Demo.vstart
           1 2 3 11 12 13 Base.construct Base.construct Base.construct
           [12; 13; 11] 0 8)%nat; try done; lia.
Defined.

(** ** DataThing *)

Section DataThingFacts.

Import DataThing.

Context {T : Type}.
Implicit Types (self : DataThing T) (rs : list callback) (d : T).

Lemma holds_construct d junk : holds [] d (construct d junk).
Proof. unfold holds. cbn. repeat split; try done. lia. Qed.

Lemma registerCallback_full f a self :
  numCallbacks self = MAX_CALLBACKS → registerCallback f a self = self.
Proof. intros H. unfold registerCallback. by rewrite decide_True. Qed.

Lemma registerCallback_room f a rs d self :
  holds rs d self → (length rs < 8)%nat →
  holds (rs ++ [mkCallback a f]) d (registerCallback f a self).
Proof.
  intros (Hd & Hn & _ & Hlen & Htake) Hlt. unfold registerCallback, MAX_CALLBACKS.
  rewrite decide_False by lia. rewrite Hn, Nat2Z.id.
  split; [done|]. cbn [numCallbacks callbacks]. rewrite length_app. cbn [length].
  split; [lia|]. split; [lia|]. split; [by rewrite length_insert|].
  replace (length rs + 1)%nat with (S (length rs)) by lia.
  rewrite (take_S_r _ _ (mkCallback a f)).
  - by rewrite take_insert_ge, Htake by lia.
  - apply list_lookup_insert_eq. lia.
Qed.

(** After any run of registrations the object holds the first eight of
    them. *)
Lemma registerAll_holds regs : ∀ rs d self,
  holds rs d self →
  holds (take 8 (rs ++ ((λ r, mkCallback r.2 r.1) <$> regs))) d (registerAll regs self).
Proof.
  induction regs as [|r regs IH]; intros rs d self Hh.
  - cbn. rewrite app_nil_r, take_ge; [done|]. by destruct Hh as (_ & _ & ? & _).
  - cbn [registerAll foldl fmap list_fmap].
    destruct (decide (length rs < 8)%nat) as [Hlt|Hge].
    + replace (rs ++ mkCallback r.2 r.1 :: _)
        with ((rs ++ [mkCallback r.2 r.1]) ++ ((λ r, mkCallback r.2 r.1) <$> regs))
        by by rewrite <- (assoc_L (++)).
      apply IH. by apply registerCallback_room.
    + pose proof Hh as (_ & Hn & Hle & _).
      rewrite registerCallback_full by (unfold MAX_CALLBACKS; lia).
      rewrite take_app_le, take_ge by lia.
      specialize (IH rs d self Hh). by rewrite take_app_le, take_ge in IH by lia.
Qed.

Lemma callCallbacks_holds rs d self :
  holds rs d self → callCallbacks self = Some (invoke d <$> rs).
Proof.
  intros (Hd & Hn & Hle & Hlen & Htake). unfold callCallbacks.
  rewrite Hn, Nat2Z.id. apply mapM_Some, Forall2_same_length_lookup.
  split; [by rewrite length_seq, length_fmap|].
  intros i j y [-> Hi]%lookup_seq. rewrite list_lookup_fmap, <- Htake.
  rewrite lookup_take_lt by done. cbn.
  destruct (callbacks self !! i) as [cb|]; [|done]. cbn. unfold invoke.
  intros [= <-]. by rewrite Hd.
Qed.

(** C8. Once eight or more [registerCallback] calls were made on a
    fresh [DataThing], a further call returns the object as it is (and
    hands the caller nothing, there being no result), and [callCallbacks]
    makes exactly eight calls: the first eight registrations, in order,
    however many were made. *)
Theorem register_beyond_capacity d junk (regs : list (ptr * ptr)) :
  (8 ≤ length regs)%nat →
  let self := registerAll regs (construct d junk) in
  (∀ f a, registerCallback f a self = self)
  ∧ callCallbacks self = Some ((λ r, mkInvocation r.1 d r.2) <$> take 8 regs)
  ∧ length <$> callCallbacks self = Some 8%nat.
Proof.
  intros Hlen self.
  pose proof (registerAll_holds regs [] d _ (holds_construct d junk)) as Hh.
  fold self in Hh. rewrite app_nil_l, <- fmap_take in Hh.
  assert (callCallbacks self = Some ((λ r, mkInvocation r.1 d r.2) <$> take 8 regs)) as Hcall.
  { rewrite (callCallbacks_holds _ _ _ Hh), <- list_fmap_compose. done. }
  split; [|split; [done|]].
  - intros f a. apply registerCallback_full.
    destruct Hh as (_ & -> & _). rewrite length_fmap, length_take_le by done. done.
  - rewrite Hcall. cbn. by rewrite length_fmap, length_take_le.
Qed.

End DataThingFacts.

Lemma register_beyond_capacity_witness :
  (8 ≤ length ((λ i, (100 + i, 200 + i)%nat) <$> seq 0 10))%nat
  ∧ let self := DataThing.registerAll ((λ i, (100 + i, 200 + i)%nat) <$> seq 0 10)
                  (DataThing.construct 42 (DataThing.mkCallback NULL NULL)) in
    (∀ f a, DataThing.registerCallback f a self = self)
    ∧ DataThing.callCallbacks self
      = Some ((λ r, DataThing.mkInvocation r.1 42 r.2)
                <$> take 8 ((λ i, (100 + i, 200 + i)%nat) <$> seq 0 10))
    ∧ length <$> DataThing.callCallbacks self = Some 8%nat.
Proof.
  split; [cbn; lia|].
  apply (register_beyond_capacity 42 (DataThing.mkCallback NULL NULL)
           ((λ i, (100 + i, 200 + i)%nat) <$> seq 0 10)).
  cbn. lia.
Defined.

(** ** ReadWriteLock *)

Section RWLockFacts.

Import RWLock.

Implicit Types (s : State) (th : Thread) (t : nat) (op : Op).

Lemma sum_list_with_insert {A} (f : A → nat) (l : list A) i x y :
  l !! i = Some x →
  (sum_list_with f (<[i := y]> l) + f x = sum_list_with f l + f y)%nat.
Proof.
  revert i. induction l as [|z l IH]; intros [|i] Hi; try done.
  - simpl in *. injection Hi as Hz. subst z. lia.
  - simpl in Hi. specialize (IH i Hi). simpl. lia.
Qed.

Lemma sum_list_with_lookup {A} (f : A → nat) (l : list A) i x :
  l !! i = Some x → (f x ≤ sum_list_with f l)%nat.
Proof.
  revert i. induction l as [|y l IH]; intros [|i] Hi; simpl in *; try done.
  - injection Hi as ->. lia.
  - specialize (IH i Hi). lia.
Qed.

(** Establish. *)
Lemma invariant_construct nthreads : invariant (construct nthreads).
Proof.
  unfold invariant, construct. cbn.
  assert (sum_list_with tokens (replicate nthreads (mkThread 0 NotWriter)) = 0%nat
          ∧ sum_list_with in_mutex (replicate nthreads (mkThread 0 NotWriter)) = 0%nat)
    as [-> ->].
  { induction nthreads as [|n [IH1 IH2]]; [done|]. cbn. by rewrite IH1, IH2. }
  split; [done|]. split; [done|].
  apply Forall_replicate. exact I.
Qed.

(** Preserve: one scheduled call that is not stray keeps the accounts
    balanced. *)
Lemma invariant_exec t op s :
  invariant s →
  (∀ th, threads s !! t = Some th → stray op th = false) →
  invariant (exec t op s).
Proof.
  intros (Hsem & Hmutex & Hwf) Hok. unfold exec.
  destruct (threads s !! t) as [th|] eqn:Ht; [|done].
  specialize (Hok th eq_refl).
  pose proof (sum_list_with_insert tokens (threads s) t th (next_thread op th) Ht) as Htok.
  pose proof (sum_list_with_insert in_mutex (threads s) t th (next_thread op th) Ht) as Hmut.
  pose proof (sum_list_with_lookup in_mutex (threads s) t th Ht) as Hin.
  assert (well_formed th) as Hth by (eapply Forall_lookup_1; done).
  assert (∀ th', well_formed th' → Forall well_formed (<[t := th']> (threads s))) as Hwf'.
  { intros th' ?. by apply Forall_insert. }
  destruct th as [r ph]. unfold invariant, step_thread, give, stray, MAX_READERS in *.
  destruct op, ph as [|count| |count]; simpl in *;
    repeat case_decide; try done; simpl in *;
    try (apply bool_decide_eq_false in Hok);
    unfold well_formed, tokens, in_mutex, MAX_READERS in *; simpl in *;
    (split; [|split; [|apply Hwf'; simpl; try done; lia]]); lia.
Qed.

Lemma run_cons c sched s : run (c :: sched) s = run sched (exec c.1 c.2 s).
Proof. reflexivity. Qed.

Lemma invariant_run sched : ∀ s,
  invariant s → disciplined sched s = true → invariant (run sched s).
Proof.
  induction sched as [|[t op] sched IH]; intros s Hs Hd; [done|].
  cbn [disciplined fst snd] in Hd. apply andb_true_iff in Hd as [Hstep Hd].
  rewrite run_cons. apply IH; [|done]. apply invariant_exec; [done|].
  intros th Ht. cbn [fst snd] in *. rewrite Ht in Hstep. by apply negb_true_iff.
Qed.


Lemma reachable_invariant nthreads sched :
  disciplined sched (construct nthreads) = true →
  invariant (run sched (construct nthreads)).
Proof. intros Hd. by apply invariant_run; [apply invariant_construct|]. Qed.

(** A writer has all eight tokens, a reader at least one. *)
Lemma holders_have_tokens (l : list Thread) :
  (8 * length (filter (λ th, holds_write th = true) l)
   + length (filter (λ th, holds_read th = true) l)
   ≤ sum_list_with tokens l)%nat.
Proof.
  induction l as [|[r ph] l IH]; [done|].
  rewrite !filter_cons. cbn [sum_list_with].
  unfold holds_write, holds_read, tokens, MAX_READERS in *. cbn [rheld wphase].
  destruct ph; repeat case_decide; cbn [length];
    repeat match goal with
           | H : bool_decide _ = true |- _ => apply bool_decide_eq_true in H
           | H : ¬ (bool_decide _ = true) |- _ =>
               apply not_true_is_false, bool_decide_eq_false in H
           end; try done; lia.
Qed.





(** The bracket of [getStatus()]: alone on a free lock, [RLock] then
    [RUnlock] go through and leave the lock as it was. *)
Lemma read_section_restores :
  exec 0 OpRLock (construct 1) = mkState 7 1 [mkThread 1 NotWriter]
  ∧ run [(0, OpRLock); (0, OpRUnlock)]%nat (construct 1) = construct 1.
Proof. by split. Qed.

(** The bracket of [setStatus()]: [Lock] takes the mutex and the eight
    tokens, [UnLock] gives all of them back. *)
Lemma write_section_restores :
  run (replicate 9 (0%nat, OpLock)) (construct 1) = mkState 0 0 [mkThread 0 Writer]
  ∧ run (replicate 9 (0%nat, OpLock) ++ replicate 9 (0%nat, OpUnLock)) (construct 1)
    = construct 1.
Proof. by split. Qed.

(** A writer waits for a reader, and a reader for a writer: thread 1 gets
    the mutex and seven tokens and then stays in [Lock()] while thread 0
    reads; once thread 0 is done, thread 1 gets the last token, and thread 0
    cannot read again before [UnLock()]. *)
Lemma writer_and_reader_wait :
  let s1 := run ((0%nat, OpRLock) :: replicate 12 (1%nat, OpLock)) (construct 2) in
  let s2 := run [(0, OpRUnlock); (1, OpLock); (0, OpRLock)]%nat s1 in
  s1 = mkState 0 0 [mkThread 1 NotWriter; mkThread 0 (LockLoop 7)]
  ∧ s2 = mkState 0 0 [mkThread 0 NotWriter; mkThread 0 Writer].
Proof. by split. Qed.

End RWLockFacts.

(** * More of the code *)

(** ** The manager: what every bring-up keeps *)

Section ManagerInvariants.

Import Manager.

Variable Obj : Type.
Variable obj_status : Obj → Status.
Variables vsetup vstart : ptr → Obj → Obj.

Local Abbreviation World := (World Obj).
Local Abbreviation M := (M Obj).
Local Abbreviation descend := (descendAndStartOrSetup Obj obj_status vsetup vstart).
Local Abbreviation advance := (advance_owner Obj obj_status vsetup vstart).
Local Abbreviation bring := (bring_up Obj obj_status vsetup vstart).
Local Abbreviation find := (findSpecBySubsystem Obj).
Local Abbreviation step := (owner_step Obj obj_status vsetup vstart).
Local Abbreviation respects := (Manager.respects Obj).
Local Abbreviation stable := (Manager.stable Obj).
Local Abbreviation bind_run := (bind_run Obj).

Implicit Types (w : World) (p q spec : ptr) (o : Obj) (fuel : nat) (depth : Z).

Section Respects.

(** A relation between worlds that holds of no change and chains. *)
Variable R : World → World → Prop.
Hypothesis R_refl : ∀ w, R w w.
Hypothesis R_trans : ∀ w1 w2 w3, R w1 w2 → R w2 w3 → R w1 w3.

Lemma respects_same {A} (m : M A) : (∀ w, world_of (m w) = w) → respects R m.
Proof. intros H w. by rewrite H. Qed.

Lemma respects_ret {A} (a : A) : respects R (mret a).
Proof. by apply respects_same. Qed.

Lemma respects_bind {A B} (m : M A) (f : A → M B) :
  respects R m → (∀ a, respects R (f a)) → respects R (m ≫= f).
Proof.
  intros Hm Hf w. rewrite bind_run. specialize (Hm w).
  destruct (m w) as [a w1|w1|w1]; cbn in *; [|done..].
  eapply R_trans; [done|]. apply Hf.
Qed.

Lemma respects_deref_spec q : respects R (deref_spec Obj q).
Proof.
  apply respects_same. intros w. unfold deref_spec. by destruct (spec_heap w !! q).
Qed.

Lemma respects_find_from fuel needle spec : respects R (find_from Obj fuel needle spec).
Proof.
  revert spec. induction fuel as [|fuel IH]; intros spec; cbn.
  - by apply respects_same.
  - case_decide; [apply respects_ret|].
    apply respects_bind; [apply respects_deref_spec|]. intros sp.
    case_decide; [apply respects_ret | apply IH].
Qed.

Lemma respects_find fuel needle : respects R (find fuel needle).
Proof.
  apply respects_bind; [by apply respects_same|]. intros w. apply respects_find_from.
Qed.

Lemma respects_for_deps (call : ptr → Z → M unit) ds depth :
  (∀ d k, respects R (call d k)) → respects R (for_deps Obj call ds depth).
Proof.
  intros Hcall. revert depth. induction ds as [|d ds IH]; intros depth; cbn.
  - apply respects_ret.
  - case_decide; [apply respects_ret|]. case_decide; [|apply respects_ret].
    apply respects_bind; [apply Hcall|]. intros _. apply IH.
Qed.

(** The status check and what follows it: to follow [R] it is enough that
    the step it takes does. *)
Lemma respects_advance q target :
  (∀ w, R w (step q target w)) → respects R (advance q target).
Proof.
  intros Hstep w. destruct (objs w !! q) as [oq|] eqn:Hq.
  - rewrite (advance_run Obj obj_status vsetup vstart q oq) by done. apply Hstep.
  - unfold advance_owner, getStatus. rewrite bind_run, Hq. apply R_refl.
Qed.

Lemma respects_descend target fuel :
  (∀ w spec depth, R w (with_trace (trace w ++ [EvCall spec target depth]) w)) →
  (∀ q w, R w (step q target w)) →
  ∀ spec depth, respects R (descend fuel spec target depth).
Proof.
  intros Hemit Hstep. induction fuel as [|fuel IH]; intros spec depth; cbn.
  - by apply respects_same.
  - apply respects_bind; [intros w; apply Hemit|]. intros _.
    apply respects_bind; [by apply respects_same|]. intros w.
    case_decide; [apply respects_ret|]. case_decide; [apply respects_ret|].
    apply respects_bind; [apply respects_deref_spec|]. intros sp.
    case_decide; [apply respects_ret|].
    apply respects_bind; [|intros _; by apply respects_advance].
    apply respects_for_deps. intros d k.
    apply respects_bind; [apply respects_find|]. intros s. apply IH.
Qed.

Lemma respects_bring_up target depth0 fuel :
  (∀ w spec depth, R w (with_trace (trace w ++ [EvCall spec target depth]) w)) →
  (∀ q w, R w (step q target w)) →
  ∀ spec, respects R (bring fuel depth0 target spec).
Proof.
  intros Hemit Hstep. induction fuel as [|fuel IH]; intros spec; cbn.
  - by apply respects_same.
  - case_decide; [apply respects_ret|].
    apply respects_bind; [apply respects_deref_spec|]. intros sp.
    case_decide; [apply respects_ret|].
    apply respects_bind; [by apply respects_descend|]. intros _.
    apply respects_bind; [apply respects_deref_spec|]. intros sp'. apply IH.
Qed.

(** [setup()] and [start()] add the write of the manager's own status. *)
Lemma respects_setup fuel depth0 :
  (∀ w spec depth, R w (with_trace (trace w ++ [EvCall spec READY depth]) w)) →
  (∀ q w, R w (step q READY w)) →
  (∀ w st, R w (with_mgr_status Obj st w)) →
  respects R (setup Obj obj_status vsetup vstart fuel depth0).
Proof.
  intros Hemit Hstep Hmgr. unfold setup.
  apply respects_bind; [by apply respects_same|]. intros w.
  apply respects_bind; [by apply respects_bring_up|]. intros _.
  apply respects_bind; [intros w'; apply Hmgr|]. intros _.
  apply respects_bind; [by apply respects_same|]. intros w'. apply respects_ret.
Qed.

Lemma respects_start fuel depth0 :
  (∀ w spec depth, R w (with_trace (trace w ++ [EvCall spec RUNNING depth]) w)) →
  (∀ q w, R w (step q RUNNING w)) →
  (∀ w st, R w (with_mgr_status Obj st w)) →
  respects R (start Obj obj_status vsetup vstart fuel depth0).
Proof.
  intros Hemit Hstep Hmgr. unfold start.
  apply respects_bind; [by apply respects_same|]. intros w.
  apply respects_bind; [by apply respects_bring_up|]. intros _.
  apply respects_bind; [intros w'; apply Hmgr|]. intros _.
  apply respects_bind; [by apply respects_same|]. intros w'. apply respects_ret.
Qed.

End Respects.

(** *** Only a due owner is touched *)

Lemma untouched_refl p o w : untouched Obj p o w w.
Proof. intros Hp. split; [done|]. exists []. by rewrite app_nil_r. Qed.

Lemma untouched_trans p o w1 w2 w3 :
  untouched Obj p o w1 w2 → untouched Obj p o w2 w3 → untouched Obj p o w1 w3.
Proof.
  intros H12 H23 Hp. destruct (H12 Hp) as (Hp2 & evs1 & Ht1 & Hf1).
  destruct (H23 Hp2) as (Hp3 & evs2 & Ht2 & Hf2). split; [done|].
  exists (evs1 ++ evs2). split; [by rewrite Ht2, Ht1, (assoc_L (++))|].
  by apply Forall_app.
Qed.

Lemma untouched_enter p o w spec target depth :
  untouched Obj p o w (with_trace (trace w ++ [EvCall spec target depth]) w).
Proof.
  intros Hp. split; [done|]. exists [EvCall spec target depth]. split; [done|].
  apply Forall_singleton. by intros [?|?].
Qed.

Lemma untouched_mgr p o w st : untouched Obj p o w (with_mgr_status Obj st w).
Proof. intros Hp. split; [done|]. exists []. by rewrite app_nil_r. Qed.

Lemma untouched_step p o q target w :
  ¬ due Obj obj_status target o → untouched Obj p o w (step q target w).
Proof.
  intros Hnd Hp. unfold owner_step.
  destruct (objs w !! q) as [oq|] eqn:Hq; [|by apply untouched_refl].
  assert (q = p → oq = o) as Hsame by (intros ->; congruence).
  repeat case_decide.
  - assert (q ≠ p) by (intros Heq; rewrite (Hsame Heq) in *; apply Hnd; by left).
    cbn. split; [by rewrite lookup_insert_ne|]. exists [EvSetup q]. split; [done|].
    apply Forall_singleton. intros [?|?]; congruence.
  - assert (q ≠ p) by (intros Heq; rewrite (Hsame Heq) in *; apply Hnd; by right).
    cbn. split; [by rewrite lookup_insert_ne|]. exists [EvStart q]. split; [done|].
    apply Forall_singleton. intros [?|?]; congruence.
  - by apply untouched_refl.
Qed.

(** X1. Only a subsystem in [INIT] is touched by the manager's [setup()],
    and only a subsystem in [READY] by its [start()]: any other subsystem
    object is left as it is and none of its virtual methods is called,
    whatever the dependency graph and whether the call returns or not.  So
    [start()] without a [setup()] before it starts nothing, and a second
    [setup()] sets nothing up again. *)
Theorem only_due_owners_are_advanced fuel depth0 w p o :
  objs w !! p = Some o →
  (obj_status o ≠ INIT →
     let w' := world_of (setup Obj obj_status vsetup vstart fuel depth0 w) in
     objs w' !! p = Some o
     ∧ ∃ evs, trace w' = trace w ++ evs ∧ Forall (λ e, ¬ owner_event p e) evs)
  ∧ (obj_status o ≠ READY →
     let w' := world_of (start Obj obj_status vsetup vstart fuel depth0 w) in
     objs w' !! p = Some o
     ∧ ∃ evs, trace w' = trace w ++ evs ∧ Forall (λ e, ¬ owner_event p e) evs).
Proof.
  intros Hp. split; intros Hst w'.
  - apply (respects_setup (untouched Obj p o)); try done.
    + apply untouched_refl.
    + apply untouched_trans.
    + intros. apply untouched_enter.
    + intros. apply untouched_step. intros [[_ ?]|[? _]]; done.
    + intros. apply untouched_mgr.
  - apply (respects_start (untouched Obj p o)); try done.
    + apply untouched_refl.
    + apply untouched_trans.
    + intros. apply untouched_enter.
    + intros. apply untouched_step. intros [[? _]|[_ ?]]; done.
    + intros. apply untouched_mgr.
Qed.

(** *** Setting up and starting stay apart *)

Lemma said_refl target w : said Obj target w w.
Proof. exists []. by rewrite app_nil_r. Qed.

Lemma said_trans target w1 w2 w3 :
  said Obj target w1 w2 → said Obj target w2 w3 → said Obj target w1 w3.
Proof.
  intros (evs1 & Ht1 & Hf1) (evs2 & Ht2 & Hf2). exists (evs1 ++ evs2).
  split; [by rewrite Ht2, Ht1, (assoc_L (++))|]. by apply Forall_app.
Qed.

Lemma said_step target q w : said Obj target w (step q target w).
Proof.
  unfold owner_step. destruct (objs w !! q) as [oq|]; [|apply said_refl].
  repeat case_decide; [| |apply said_refl].
  - exists [EvSetup q]. split; [done|]. apply Forall_singleton. by destruct_and!.
  - exists [EvStart q]. split; [done|]. apply Forall_singleton. by destruct_and!.
Qed.

(** X2. While the manager's [setup()] runs, no [start()] of a subsystem
    is called, and while its [start()] runs, no [setup()]: every nested call
    carries the target of the run it belongs to. *)
Theorem setup_and_start_stay_apart fuel depth0 w :
  (∃ evs, trace (world_of (setup Obj obj_status vsetup vstart fuel depth0 w)) = trace w ++ evs
          ∧ Forall (event_for READY) evs ∧ ∀ q, EvStart q ∉ evs)
  ∧ (∃ evs, trace (world_of (start Obj obj_status vsetup vstart fuel depth0 w)) = trace w ++ evs
            ∧ Forall (event_for RUNNING) evs ∧ ∀ q, EvSetup q ∉ evs).
Proof.
  split.
  - destruct (respects_setup (said Obj READY) (said_refl READY) (said_trans READY)
                fuel depth0) with (w := w) as (evs & Ht & Hf).
    + intros. exists [EvCall spec READY depth]. split; [done|]. by apply Forall_singleton.
    + intros. apply said_step.
    + intros. exists []. split; [by rewrite app_nil_r|done].
    + exists evs. split; [done|]. split; [done|]. intros q Hq.
      rewrite Forall_forall in Hf. by specialize (Hf _ Hq).
  - destruct (respects_start (said Obj RUNNING) (said_refl RUNNING) (said_trans RUNNING)
                fuel depth0) with (w := w) as (evs & Ht & Hf).
    + intros. exists [EvCall spec RUNNING depth]. split; [done|]. by apply Forall_singleton.
    + intros. apply said_step.
    + intros. exists []. split; [by rewrite app_nil_r|done].
    + exists evs. split; [done|]. split; [done|]. intros q Hq.
      rewrite Forall_forall in Hf. by specialize (Hf _ Hq).
Qed.

(** *** A due owner is advanced *)

Lemma called_or_kept_refl p o e w : called_or_kept Obj p o e w w.
Proof. exists []. split; [by rewrite app_nil_r|]. by right. Qed.

Lemma called_or_kept_trans p o e w1 w2 w3 :
  called_or_kept Obj p o e w1 w2 → called_or_kept Obj p o e w2 w3 →
  called_or_kept Obj p o e w1 w3.
Proof.
  intros (evs1 & Ht1 & H1) (evs2 & Ht2 & H2). exists (evs1 ++ evs2).
  split; [by rewrite Ht2, Ht1, (assoc_L (++))|]. intros Hp.
  destruct (H1 Hp) as [Hin|Hp2]; [left; apply elem_of_app; by left|].
  destruct (H2 Hp2) as [Hin|Hp3]; [left; apply elem_of_app; by right|by right].
Qed.

Lemma called_or_kept_step p o q target w :
  called_or_kept Obj p o (milestone_of target p) w (step q target w).
Proof.
  unfold owner_step. destruct (objs w !! q) as [oq|] eqn:Hq; [|apply called_or_kept_refl].
  destruct (decide (q = p)) as [->|Hne].
  - repeat case_decide; [| |apply called_or_kept_refl]; destruct_and!; subst target.
    + exists [EvSetup p]. split; [done|]. intros _. left. apply list_elem_of_here.
    + exists [EvStart p]. split; [done|]. intros _. left. apply list_elem_of_here.
  - repeat case_decide; [| |apply called_or_kept_refl].
    + exists [EvSetup q]. split; [done|]. intros Hp. right. cbn. by rewrite lookup_insert_ne.
    + exists [EvStart q]. split; [done|]. intros Hp. right. cbn. by rewrite lookup_insert_ne.
Qed.

(** X3. A call that returns, on a registered spec whose owner is due (in
    [INIT] with target [READY], or in [READY] with target [RUNNING]), has
    called the owner's [setup()], respectively [start()]: nothing about the
    dependencies holds the owner back, be they in [FAULT], in [STOPPED],
    not registered, or skipped by the depth bound. *)
Theorem due_owner_is_advanced fuel w w' spec sp o target depth :
  specs w ≠ NULL → spec ≠ NULL →
  spec_heap w !! spec = Some sp → subsystem sp ≠ NULL →
  objs w !! subsystem sp = Some o →
  due Obj obj_status target o →
  descend fuel spec target depth w = Done tt w' →
  ∃ evs, trace w' = trace w ++ evs ∧ milestone_of target (subsystem sp) ∈ evs.
Proof.
  intros Hspecs Hspec Hsp Howner Ho Hdue Hrun.
  destruct fuel as [|fuel]; [done|].
  rewrite (descend_unfold Obj obj_status vsetup vstart fuel w spec sp) in Hrun by done.
  set (p := subsystem sp) in *. set (e := milestone_of target p).
  set (w0 := with_trace (trace w ++ [EvCall spec target depth]) w) in *.
  rewrite bind_run in Hrun.
  assert (respects (called_or_kept Obj p o e)
            (for_deps Obj (λ d k, s ← find fuel d; descend fuel s target k) (deps sp) depth))
    as Hloop.
  { apply respects_for_deps.
    - apply called_or_kept_refl.
    - apply called_or_kept_trans.
    - intros d k. apply respects_bind; [apply called_or_kept_trans| |].
      + apply respects_find; [apply called_or_kept_refl | apply called_or_kept_trans].
      + intros s. apply respects_descend.
        * apply called_or_kept_refl.
        * apply called_or_kept_trans.
        * intros. exists [EvCall spec0 target depth0]. split; [done|]. by right.
        * intros. apply called_or_kept_step. }
  specialize (Hloop w0).
  destruct (for_deps _ _ _ _ w0) as [[] w1|w1|w1]; [|done..].
  cbn in Hloop. destruct Hloop as (evs1 & Ht1 & Hkept).
  destruct (objs w1 !! p) as [o1|] eqn:Hp1.
  - rewrite (advance_run Obj obj_status vsetup vstart p o1) in Hrun by done.
    injection Hrun as <-.
    assert (trace w1 = trace w ++ [EvCall spec target depth] ++ evs1) as Ht1'.
    { rewrite Ht1. unfold w0. cbn. by rewrite <- (assoc_L (++)). }
    destruct (Hkept Ho) as [Hin|Hp].
    + destruct (said_step target p w1) as (evs2 & Ht2 & _).
      exists ([EvCall spec target depth] ++ evs1 ++ evs2).
      split; [by rewrite Ht2, Ht1', <- !(assoc_L (++))|].
      apply elem_of_app. right. apply elem_of_app. by left.
    + injection Hp as ->.
      exists ([EvCall spec target depth] ++ evs1 ++ [e]). split.
      * unfold owner_step. rewrite Hp1.
        destruct Hdue as [[-> Hst]|[-> Hst]].
        -- rewrite decide_True by done. cbn. by rewrite Ht1', <- !(assoc_L (++)).
        -- rewrite decide_False by (by intros [? _]). rewrite decide_True by done.
           cbn. by rewrite Ht1', <- !(assoc_L (++)).
      * apply elem_of_app. right. apply elem_of_app. right. apply list_elem_of_here.
  - unfold advance_owner, getStatus in Hrun. by rewrite bind_run, Hp1 in Hrun.
Qed.

(** *** The list and the objects stay *)

Lemma stable_refl w : stable w w.
Proof. by repeat split. Qed.

Lemma stable_trans w1 w2 w3 : stable w1 w2 → stable w2 w3 → stable w1 w3.
Proof.
  intros ((Hs1 & Hh1 & Hm1) & Hp1) ((Hs2 & Hh2 & Hm2) & Hp2).
  split; [repeat split; congruence|]. auto.
Qed.

Lemma stable_enter w spec target depth :
  stable w (with_trace (trace w ++ [EvCall spec target depth]) w).
Proof. by repeat split. Qed.

Lemma stable_step q target w : stable w (step q target w).
Proof.
  split; [apply step_frame|]. intros p Hp. unfold owner_step.
  destruct (objs w !! q) as [oq|] eqn:Hq; [|done].
  repeat case_decide; try done; cbn;
    (destruct (decide (q = p)) as [->|Hne];
     [by rewrite lookup_insert_eq | by rewrite lookup_insert_ne]).
Qed.

Lemma steady_descend fuel spec target depth :
  respects stable (descend fuel spec target depth).
Proof.
  apply respects_descend.
  - apply stable_refl.
  - apply stable_trans.
  - intros. apply stable_enter.
  - intros. apply stable_step.
Qed.

(** *** What [findSpecBySubsystem] returns *)

Lemma find_from_first fuel needle w l : ∀ p,
  lseg (spec_heap w) p l → (length l < fuel)%nat →
  ∃ r, find_from Obj fuel needle p w = Done r w
       ∧ ((r = NULL
           ∧ ∀ x sp, x ∈ l → spec_heap w !! x = Some sp → subsystem sp ≠ needle)
          ∨ (∃ l1 l2 sp, l = l1 ++ r :: l2
               ∧ spec_heap w !! r = Some sp ∧ subsystem sp = needle
               ∧ ∀ y spy, y ∈ l1 → spec_heap w !! y = Some spy → subsystem spy ≠ needle)).
Proof.
  revert fuel. induction l as [|x l IH]; intros fuel p Hl Hfuel.
  - cbn in Hl. subst p. destruct fuel as [|fuel]; [lia|]. exists NULL.
    split; [done|]. left. split; [done|]. by intros x sp []%elem_of_nil.
  - destruct Hl as (-> & Hx & sp & Hh & Hl).
    destruct fuel as [|fuel]; cbn in Hfuel; [lia|]. cbn [find_from].
    rewrite decide_False by done. rewrite bind_run. unfold deref_spec at 1. rewrite Hh.
    destruct (decide (subsystem sp = needle)) as [Heq|Hne].
    + exists x. split; [done|]. right. exists [], l, sp.
      split; [done|]. split; [done|]. split; [done|]. by intros y spy []%elem_of_nil.
    + destruct (IH fuel (next sp) Hl) as (r & -> & Hr); [lia|].
      exists r. split; [done|].
      destruct Hr as [[-> Hnone]|(l1 & l2 & spr & -> & Hhr & Hor & Hbefore)].
      * left. split; [done|]. intros y spy [->|Hy]%elem_of_cons Hhy; [|by eapply Hnone].
        rewrite Hh in Hhy. by injection Hhy as <-.
      * right. exists (x :: l1), l2, spr. split; [done|]. split; [done|]. split; [done|].
        intros y spy [->|Hy]%elem_of_cons Hhy; [|by eapply Hbefore].
        rewrite Hh in Hhy. by injection Hhy as <-.
Qed.

Lemma find_first fuel needle w l :
  lseg (spec_heap w) (specs w) l → (length l < fuel)%nat →
  ∃ r, find fuel needle w = Done r w
       ∧ ((r = NULL
           ∧ ∀ x sp, x ∈ l → spec_heap w !! x = Some sp → subsystem sp ≠ needle)
          ∨ (∃ l1 l2 sp, l = l1 ++ r :: l2
               ∧ spec_heap w !! r = Some sp ∧ subsystem sp = needle
               ∧ ∀ y spy, y ∈ l1 → spec_heap w !! y = Some spy → subsystem spy ≠ needle)).
Proof.
  intros Hl Hfuel. unfold findSpecBySubsystem. rewrite bind_run. cbn [get_world].
  by apply find_from_first.
Qed.

(** X4. On a list that ends, [findSpecBySubsystem] returns: the null
    pointer when no registered spec has the subsystem as owner, and
    otherwise the first spec from the head that has it, so of two specs
    with one owner the one registered later is the one found. *)
Theorem find_returns_first_match fuel needle w l :
  lseg (spec_heap w) (specs w) l → (length l < fuel)%nat →
  ∃ r, find fuel needle w = Done r w
       ∧ ((r = NULL
           ∧ ∀ x sp, x ∈ l → spec_heap w !! x = Some sp → subsystem sp ≠ needle)
          ∨ (∃ l1 l2 sp, l = l1 ++ r :: l2
               ∧ spec_heap w !! r = Some sp ∧ subsystem sp = needle
               ∧ ∀ y spy, y ∈ l1 → spec_heap w !! y = Some spy → subsystem spy ≠ needle)).
Proof.
  apply find_first.
Qed.

(** *** Calls that have nothing to do *)

Lemma descend_guard fuel w spec target depth :
  specs w = NULL ∨ spec = NULL
  ∨ (∃ sp, spec_heap w !! spec = Some sp ∧ subsystem sp = NULL) →
  descend (S fuel) spec target depth w
  = Done tt (with_trace (trace w ++ [EvCall spec target depth]) w).
Proof.
  intros Hno. cbn [descendAndStartOrSetup].
  rewrite bind_run. cbn [emit modify]. rewrite bind_run. cbn [get_world specs with_trace].
  destruct (decide (specs w = NULL)); [done|].
  destruct (decide (spec = NULL)); [done|].
  destruct Hno as [?|[?|(sp & Hsp & Ho)]]; [done..|].
  rewrite bind_run. unfold deref_spec. cbn [spec_heap with_trace]. rewrite Hsp.
  by rewrite decide_True.
Qed.

Lemma descend_null fuel w target depth :
  descend (S fuel) NULL target depth w
  = Done tt (with_trace (trace w ++ [EvCall NULL target depth]) w).
Proof.
  cbn [descendAndStartOrSetup].
  rewrite bind_run. cbn [emit modify]. rewrite bind_run. cbn [get_world specs with_trace].
  by destruct (decide (specs w = NULL)).
Qed.

Lemma setup_run fuel depth0 w w1 :
  bring fuel depth0 READY (specs w) w = Done tt w1 →
  setup Obj obj_status vsetup vstart fuel depth0 w
  = Done READY (with_mgr_status Obj READY w1).
Proof.
  intros Hrun. unfold setup. rewrite bind_run. cbn [get_world]. by rewrite bind_run, Hrun.
Qed.

Lemma start_run fuel depth0 w w1 :
  bring fuel depth0 RUNNING (specs w) w = Done tt w1 →
  start Obj obj_status vsetup vstart fuel depth0 w
  = Done RUNNING (with_mgr_status Obj RUNNING w1).
Proof.
  intros Hrun. unfold start. rewrite bind_run. cbn [get_world]. by rewrite bind_run, Hrun.
Qed.

(** *** A graph without cycles *)

Section Acyclic.

Variable rank : ptr → nat.
Variable l : list ptr.

Local Abbreviation acyclic := (Manager.acyclic Obj rank).

Lemma acyclic_stable w w' : acyclic w l → stable w w' → acyclic w' l.
Proof.
  intros (Hl & Hall) ((Hs & Hh & _) & Hp). split; [by rewrite Hs, Hh|].
  intros x Hx. destruct (Hall x Hx) as (sp & Hsp & Ho & Hr).
  exists sp. rewrite Hh. auto.
Qed.

Lemma for_deps_returns (call : ptr → Z → M unit) ds :
  (∀ d k w1, d ∈ ds → acyclic w1 l →
     ∃ w2, call d k w1 = Done tt w2 ∧ stable w1 w2) →
  ∀ depth w1, acyclic w1 l →
    ∃ w2, for_deps Obj call ds depth w1 = Done tt w2 ∧ stable w1 w2.
Proof.
  induction ds as [|d ds IH]; intros Hcall depth w1 Hw1; cbn [for_deps].
  - exists w1. split; [done|apply stable_refl].
  - case_decide; [exists w1; split; [done|apply stable_refl]|].
    case_decide; [|exists w1; split; [done|apply stable_refl]].
    destruct (Hcall d depth w1) as (w2 & Hrun & Hst); [apply list_elem_of_here|done|].
    destruct (IH (λ d' k w' Hd', Hcall d' k w' (list_elem_of_further _ _ _ Hd'))
                 (depth + 1) w2) as (w3 & Hrun3 & Hst3).
    { by eapply acyclic_stable. }
    exists w3. rewrite bind_run, Hrun. split; [done|]. by eapply stable_trans.
Qed.

Lemma descend_returns n : ∀ fuel spec target depth w,
  acyclic w l →
  spec = NULL
  ∨ (spec ∈ l ∧ ∃ sp, spec_heap w !! spec = Some sp ∧ (rank (subsystem sp) ≤ n)%nat) →
  (n + length l + 2 ≤ fuel)%nat →
  ∃ w', descend fuel spec target depth w = Done tt w' ∧ stable w w'.
Proof.
  induction n as [n IH] using lt_wf_ind.
  intros fuel spec target depth w Hac Hspec Hfuel.
  destruct fuel as [|fuel]; [lia|].
  destruct Hspec as [->|(Hin & sp & Hsp & Hrank)].
  { rewrite descend_null. eexists. split; [done|]. apply stable_enter. }
  destruct (decide (subsystem sp = NULL)) as [Hnull|Hnn].
  { rewrite descend_guard by eauto 6.
    eexists. split; [done|]. apply stable_enter. }
  pose proof Hac as (Hl & Hall).
  assert (spec ≠ NULL) as Hspecnn by by eapply lseg_elem_not_null.
  assert (specs w ≠ NULL) as Hspecs.
  { destruct l as [|x l']; [by apply elem_of_nil in Hin|].
    by apply lseg_head_not_null in Hl as [_ ?]. }
  destruct (Hall spec Hin) as (sp' & Hsp' & Hobj & Hdeps).
  rewrite Hsp in Hsp'. injection Hsp' as <-.
  rewrite (descend_unfold Obj obj_status vsetup vstart fuel w spec sp) by done.
  set (w0 := with_trace (trace w ++ [EvCall spec target depth]) w).
  assert (stable w w0) as Hst0 by apply stable_enter.
  destruct (for_deps_returns
              (λ d k, s ← find fuel d; descend fuel s target k) (deps sp)) with
    (depth := depth) (w1 := w0) as (w2 & Hloop & Hst2).
  - intros d k w1 Hd Hw1. rewrite bind_run.
    destruct (find_first fuel d w1 l) as (r & -> & Hr);
      [by destruct Hw1 | lia |].
    apply (IH (rank d)); [specialize (Hdeps d Hd); lia | done | | specialize (Hdeps d Hd); lia].
    destruct Hr as [[-> _]|(l1 & l2 & spr & -> & Hhr & Hor & _)]; [by left|].
    right. split; [apply elem_of_app; right; apply list_elem_of_here|].
    exists spr. split; [done|]. by rewrite Hor.
  - by eapply acyclic_stable.
  - rewrite bind_run, Hloop.
    destruct (stable_trans _ _ _ Hst0 Hst2) as [_ Hpres].
    destruct (Hpres _ Hobj) as [o Ho].
    rewrite (advance_run Obj obj_status vsetup vstart _ o) by done.
    eexists. split; [done|].
    eapply stable_trans; [|apply stable_step]. by eapply stable_trans.
Qed.

Lemma bring_up_returns n target depth0 l' : ∀ p fuel w,
  lseg (spec_heap w) p l' → (∀ x, x ∈ l' → x ∈ l) →
  acyclic w l →
  (∀ x sp, x ∈ l → spec_heap w !! x = Some sp → (rank (subsystem sp) ≤ n)%nat) →
  (n + length l + length l' + 3 ≤ fuel)%nat →
  ∃ w', bring fuel depth0 target p w = Done tt w' ∧ stable w w'.
Proof.
  induction l' as [|x l' IH]; intros p fuel w Hl' Hsub Hac Hrank Hfuel.
  - cbn in Hl'. subst p. destruct fuel as [|fuel]; [lia|].
    exists w. split; [done|apply stable_refl].
  - destruct Hl' as (-> & Hx & sp & Hh & Hl'). cbn [length] in Hfuel.
    destruct fuel as [|fuel]; [lia|].
    rewrite (bring_up_S Obj obj_status vsetup vstart). rewrite decide_False by done.
    rewrite bind_run. unfold deref_spec at 1. rewrite Hh.
    case_decide; [exists w; split; [done|apply stable_refl]|].
    assert (x ∈ l) as Hin by apply Hsub, list_elem_of_here.
    destruct (descend_returns n fuel x target depth0 w) as (w1 & Hrun & Hst1);
      [done | right; eauto | lia |].
    rewrite bind_run, Hrun. pose proof Hst1 as ((_ & Hh1 & _) & _).
    rewrite bind_run. unfold deref_spec at 1. rewrite Hh1, Hh.
    destruct (IH (next sp) fuel w1) as (w2 & Hrun2 & Hst2).
    + by rewrite Hh1.
    + intros y Hy. by apply Hsub, list_elem_of_further.
    + by eapply acyclic_stable.
    + intros y spy Hy. rewrite Hh1. by apply Hrank.
    + lia.
    + exists w2. split; [done|]. by eapply stable_trans.
Qed.

(** X5. When the dependencies of the registered specs form no cycle
    (a rank goes down along every dependency) and every registered owner is
    an object, the manager's [setup()] returns [READY] and its [start()]
    after it returns [RUNNING], for every default [depth], with or
    without unregistered dependencies, whatever the subsystems' own
    [setup()] and [start()] do to their status. *)
Theorem setup_and_start_return_on_acyclic_graph n fuel depth0 w :
  acyclic w l →
  (∀ x sp, x ∈ l → spec_heap w !! x = Some sp → (rank (subsystem sp) ≤ n)%nat) →
  (n + 2 * length l + 3 ≤ fuel)%nat →
  ∃ w1 w2, setup Obj obj_status vsetup vstart fuel depth0 w = Done READY w1
           ∧ start Obj obj_status vsetup vstart fuel depth0 w1 = Done RUNNING w2
           ∧ mgr_status w1 = READY ∧ mgr_status w2 = RUNNING.
Proof.
  intros Hac Hrank Hfuel. pose proof Hac as (Hl & _).
  destruct (bring_up_returns n READY depth0 l (specs w) fuel w)
    as (w1 & Hrun1 & Hst1); [done|done|done|done|lia|].
  set (w1' := with_mgr_status Obj READY w1).
  assert (stable w w1) as ((Hs1 & Hh1 & _) & Hp1) by done.
  assert (acyclic w1' l) as Hac1.
  { exact (acyclic_stable w w1 Hac Hst1). }
  destruct (bring_up_returns n RUNNING depth0 l (specs w1') fuel w1')
    as (w2 & Hrun2 & Hst2); [by destruct Hac1|done|done| |lia|].
  { intros x sp Hx. cbn. rewrite Hh1. by apply Hrank. }
  exists w1', (with_mgr_status Obj RUNNING w2).
  split; [by apply setup_run|]. split; [by apply start_run|]. done.
Qed.

End Acyclic.

(** X6. A dependency that was never registered is skipped: the lookup
    gives the null pointer and the nested call for it returns at once, so
    the loop goes on to the next dependency and nothing is set up or
    started for the missing one. *)
Theorem unregistered_dependency_is_skipped fuel w l d target depth :
  lseg (spec_heap w) (specs w) l →
  (∀ x sp, x ∈ l → spec_heap w !! x = Some sp → subsystem sp ≠ d) →
  (length l < fuel)%nat →
  (s ← find fuel d; descend fuel s target depth) w
  = Done tt (with_trace (trace w ++ [EvCall NULL target depth]) w).
Proof.
  intros Hl Hnone Hfuel. rewrite bind_run.
  destruct (find_from_first fuel d w l (specs w) Hl Hfuel) as (r & Hr & Hcase).
  unfold findSpecBySubsystem. rewrite bind_run. cbn [get_world]. rewrite Hr.
  destruct Hcase as [[-> _]|(l1 & l2 & sp & -> & Hh & Ho & _)].
  - destruct fuel as [|fuel]; [lia|]. apply descend_null.
  - exfalso. apply (Hnone r sp); [|done..]. apply elem_of_app. right. apply list_elem_of_here.
Qed.

(** *** Registration *)

(** X7. [addSubsystem] drops a null spec and a spec without owner
    without a sign: the list, the specs, the objects are as before; only
    the first-call flag is set. *)
Theorem addSubsystem_drops_malformed w spec :
  spec = NULL ∨ (∃ sp, spec_heap w !! spec = Some sp ∧ subsystem sp = NULL) →
  ∃ w', addSubsystem Obj spec w = Done tt w'
        ∧ head_of Obj w' = head_of Obj w ∧ setup_flag w' = true
        ∧ spec_heap w' = spec_heap w ∧ objs w' = objs w ∧ trace w' = trace w.
Proof.
  intros Hbad. unfold addSubsystem, head_of. rewrite bind_run. cbn [get_world].
  assert (∀ w0 : World, spec_heap w0 = spec_heap w →
            (if decide (spec = NULL) then mret tt else
             sp ← deref_spec Obj spec;
             if decide (subsystem sp = NULL) then mret tt else
             w ← get_world Obj;
             (if decide (specs w ≠ NULL) then store_next Obj spec (specs w)
              else store_next Obj spec NULL) ;;
             modify Obj (with_specs Obj spec)) w0 = Done tt w0) as Hrest.
  { intros w0 Hw0. destruct (decide (spec = NULL)) as [?|Hnn]; [done|].
    destruct Hbad as [?|(sp & Hsp & Ho)]; [done|].
    rewrite bind_run. unfold deref_spec. rewrite Hw0, Hsp. by rewrite decide_True. }
  destruct (setup_flag w) eqn:Hflag.
  - rewrite bind_run. cbn [mret M_ret]. rewrite Hrest by done.
    exists w. by rewrite Hflag.
  - rewrite bind_run. cbn [modify]. rewrite Hrest by done. by eexists.
Qed.

(** X8. A spec that was just registered is the one [findSpecBySubsystem]
    returns for its owner, at the first step of the walk, also when an
    older spec with the same owner is on the list. *)
Theorem registered_spec_is_found fuel w x sp :
  x ≠ NULL → spec_heap w !! x = Some sp → subsystem sp ≠ NULL →
  ∃ w', (addSubsystem Obj x ;; find (S fuel) (subsystem sp)) w = Done x w'
        ∧ specs w' = x
        ∧ spec_heap w' !! x = Some (mkSpec (subsystem sp) (deps sp) (head_of Obj w)).
Proof.
  intros Hx Hsp Ho. eexists. rewrite bind_run.
  rewrite (addSubsystem_run Obj w x sp) by done.
  unfold findSpecBySubsystem. rewrite bind_run. cbn [get_world specs find_from].
  rewrite decide_False by done. rewrite bind_run. unfold deref_spec. cbn [spec_heap].
  rewrite lookup_insert_eq. cbn [subsystem]. rewrite decide_True by done.
  split; [done|]. split; [done|]. cbn. apply lookup_insert_eq.
Qed.

(** X9. Registration prepends.  After the constructors registered the
    distinct, well-formed specs [order], the list from [specs] reads them in
    the reverse order and ends in the null pointer; owners and dependency
    arrays are as they were, and no object and no event was touched. *)
Theorem registration_reverses_order order w :
  setup_flag w = false → order ≠ [] → NoDup order →
  (∀ x, x ∈ order → x ≠ NULL ∧ ∃ sp, spec_heap w !! x = Some sp ∧ subsystem sp ≠ NULL) →
  ∃ w', register Obj order w = Done tt w'
        ∧ lseg (spec_heap w') (specs w') (rev order) ∧ specs w' ≠ NULL
        ∧ objs w' = objs w ∧ trace w' = trace w ∧ mgr_status w' = mgr_status w
        ∧ (∀ y sp, spec_heap w !! y = Some sp →
             ∃ n, spec_heap w' !! y = Some (mkSpec (subsystem sp) (deps sp) n)).
Proof. apply register_fresh. Qed.

Lemma self_loop_never_ends w x sp :
  x ≠ NULL → specs w = x →
  spec_heap w !! x = Some sp → next sp = x → subsystem sp ≠ NULL →
  (∀ fuel needle, needle ≠ subsystem sp → find fuel needle w = OutOfFuel w)
  ∧ (∀ fuel depth0 r w', setup Obj obj_status vsetup vstart fuel depth0 w ≠ Done r w').
Proof.
  intros Hx Hspecs Hloop Hnext Ho. split.
  - intros fuel needle Hne. unfold findSpecBySubsystem. rewrite bind_run.
    cbn [get_world]. rewrite Hspecs.
    induction fuel as [|fuel IH]; [done|]. cbn [find_from].
    rewrite decide_False by done. rewrite bind_run. unfold deref_spec at 1. rewrite Hloop.
    rewrite decide_False by done. by rewrite Hnext.
  - intros fuel depth0 r w' Hdone. unfold setup in Hdone.
    rewrite bind_run in Hdone. cbn [get_world] in Hdone. rewrite bind_run in Hdone.
    rewrite Hspecs in Hdone.
    assert (∀ f w0, spec_heap w0 = spec_heap w →
              ∀ w1, bring f depth0 READY x w0 ≠ Done tt w1) as Hnever.
    { clear Hdone. induction f as [|f IH]; intros w0 Hw0 w1; [done|].
      rewrite (bring_up_S Obj obj_status vsetup vstart). rewrite decide_False by done.
      rewrite bind_run. unfold deref_spec at 1. rewrite Hw0, Hloop.
      rewrite decide_False by done. rewrite bind_run.
      pose proof (steady_descend f x READY depth0 w0) as ((_ & Hh & _) & _).
      destruct (descend f x READY depth0 w0) as [[] w0'|w0'|w0']; [|done..].
      cbn in Hh. rewrite bind_run. unfold deref_spec at 1. rewrite Hh, Hw0, Hloop.
      rewrite Hnext. apply IH. congruence. }
    destruct (bring fuel depth0 READY x w) as [[] w1|w1|w1] eqn:Hb; [|done..].
    by apply Hnever in Hb.
Qed.

(** X10. Registering one spec twice ties the list into a loop: the spec is
    its own successor.  From then on the lookup of a subsystem that is not
    its owner never returns, and neither does the manager's [setup()]. *)
Theorem double_registration_loops w x sp :
  x ≠ NULL → spec_heap w !! x = Some sp → subsystem sp ≠ NULL →
  ∃ w2, (addSubsystem Obj x ;; addSubsystem Obj x) w = Done tt w2
        ∧ specs w2 = x
        ∧ spec_heap w2 !! x = Some (mkSpec (subsystem sp) (deps sp) x)
        ∧ (∀ fuel needle, needle ≠ subsystem sp → find fuel needle w2 = OutOfFuel w2)
        ∧ (∀ fuel depth0 r w',
             setup Obj obj_status vsetup vstart fuel depth0 w2 ≠ Done r w').
Proof.
  intros Hx Hsp Ho. eexists. rewrite bind_run.
  rewrite (addSubsystem_run Obj w x sp) by done.
  rewrite (addSubsystem_run Obj _ x (mkSpec (subsystem sp) (deps sp) (head_of Obj w)))
    by (try done; apply lookup_insert_eq).
  split; [reflexivity|]. split; [done|].
  assert (∀ h, (<[x := mkSpec (subsystem sp) (deps sp) x]> h : gmap nat Spec) !! x
               = Some (mkSpec (subsystem sp) (deps sp) x)) as Hloop.
  { intros h. apply lookup_insert_eq. }
  split; [apply Hloop|].
  apply (self_loop_never_ends _ x (mkSpec (subsystem sp) (deps sp) x));
    try done. apply Hloop.
Qed.

(** *** The loop over the dependencies *)

(** X11. The loop makes exactly the planned nested calls: it stops at the
    array's terminator, the dependency at index [i] is called with
    [depth + i] (the first one with the caller's own [depth]), and
    dependencies from index [8 - depth] on are not called at all; entered
    with [depth] 8 or more the loop calls nothing. *)
Theorem loop_makes_planned_calls (call : ptr → Z → M unit) ds depth :
  for_deps Obj call ds depth = run_calls Obj call (planned ds depth)
  ∧ (length (planned ds depth) ≤ Z.to_nat (8 - depth))%nat
  ∧ ∀ i c, planned ds depth !! i = Some c →
           before_null ds !! i = Some c.1 ∧ c.2 = depth + Z.of_nat i.
Proof.
  split; [|split].
  - revert depth. induction ds as [|d ds IH]; intros depth.
    + unfold planned. cbn. by rewrite take_nil.
    + unfold planned. cbn [for_deps before_null].
      destruct (decide (d = NULL)) as [Hd|Hd]; [by rewrite take_nil|].
      destruct (decide (depth < 8)) as [Hlt|Hge].
      * replace (Z.to_nat (8 - depth)) with (S (Z.to_nat (8 - (depth + 1)))) by lia.
        cbn [take imap run_calls foldr]. rewrite Z.add_0_r. cbn [fst snd].
        rewrite IH. unfold planned, run_calls.
        by rewrite (imap_ext ((λ i d, (d, depth + Z.of_nat i)) ∘ S)
                     (λ i d, (d, depth + 1 + Z.of_nat i)))
          by (intros i x _; cbn; f_equal; lia).
      * by replace (Z.to_nat (8 - depth)) with 0%nat by lia.
  - unfold planned. rewrite length_imap, length_take. lia.
  - intros i c. unfold planned. rewrite list_lookup_imap.
    destruct (take _ _ !! i) as [d|] eqn:Hi; [|done]. cbn. intros [= <-]. cbn.
    split; [|done]. apply lookup_take_Some in Hi. by destruct Hi.
Qed.

End ManagerInvariants.

(** *** The manager's properties on concrete subsystems *)

(** The registered list of [Demo.pair] is 12, 11. *)
Lemma pair_list a b :
  Manager.lseg (Manager.spec_heap (Demo.pair a b)) (Manager.specs (Demo.pair a b))
    [12; 11]%nat.
Proof.
  split; [done|]. split; [done|]. eexists. split; [by vm_compute|].
  split; [done|]. split; [done|]. eexists. split; [by vm_compute|]. done.
Qed.

Lemma pair_specs a b x sp :
  x ∈ [12; 11]%nat → Manager.spec_heap (Demo.pair a b) !! x = Some sp →
  (x = 12%nat ∧ sp = Manager.mkSpec 2 [] 11) ∨ (x = 11%nat ∧ sp = Manager.mkSpec 1 [2%nat] NULL).
Proof.
  intros Hx Hsp. apply elem_of_cons in Hx as [->|Hx].
  - left. split; [done|]. vm_compute in Hsp. by injection Hsp as <-.
  - apply list_elem_of_singleton in Hx as ->. right. split; [done|].
    vm_compute in Hsp. by injection Hsp as <-.
Qed.

Lemma only_due_owners_are_advanced_witness :
  let w := Demo.pair READY INIT in
  Manager.objs w !! 1%nat = Some (Base.mkBase READY)
  ∧ (Base.getStatus (Base.mkBase READY) ≠ INIT →
     let w' := Manager.world_of (Demo.setup 8 0 w) in
     Manager.objs w' !! 1%nat = Some (Base.mkBase READY)
     ∧ ∃ evs, Manager.trace w' = Manager.trace w ++ evs
              ∧ Forall (λ e, ¬ Manager.owner_event 1 e) evs)
  ∧ (Base.getStatus (Base.mkBase READY) ≠ READY →
     let w' := Manager.world_of (Demo.start 8 0 w) in
     Manager.objs w' !! 1%nat = Some (Base.mkBase READY)
     ∧ ∃ evs, Manager.trace w' = Manager.trace w ++ evs
              ∧ Forall (λ e, ¬ Manager.owner_event 1 e) evs).
Proof.
  intros w. split; [by vm_compute|].
  apply (only_due_owners_are_advanced Demo.Obj Base.getStatus Demo.vsetup Demo.vstart
           8 0 w 1%nat (Base.mkBase READY)).
  by vm_compute.
Defined.

Lemma due_owner_is_advanced_witness :
  let w := Demo.pair INIT FAULT in
  let w' := Manager.world_of (Demo.descend 5 11%nat READY 0 w) in
  Manager.specs w ≠ NULL ∧ 11%nat ≠ NULL
  ∧ Manager.spec_heap w !! 11%nat = Some (Manager.mkSpec 1 [2%nat] NULL)
  ∧ 1%nat ≠ NULL
  ∧ Manager.objs w !! 1%nat = Some (Base.mkBase INIT)
  ∧ Manager.due Demo.Obj Base.getStatus READY (Base.mkBase INIT)
  ∧ Demo.descend 5 11%nat READY 0 w = Manager.Done tt w'
  ∧ ∃ evs, Manager.trace w' = Manager.trace w ++ evs
           ∧ Manager.milestone_of READY 1 ∈ evs.
Proof.
  intros w w'. do 5 (split; [by vm_compute|]). split; [by left|]. split; [by vm_compute|].
  apply (due_owner_is_advanced Demo.Obj Base.getStatus Demo.vsetup Demo.vstart
           5 w w' 11%nat (Manager.mkSpec 1 [2%nat] NULL) (Base.mkBase INIT) READY 0);
    try (by vm_compute). by left.
Defined.

Lemma find_returns_first_match_witness :
  let w := Demo.pair INIT INIT in
  Manager.lseg (Manager.spec_heap w) (Manager.specs w) [12; 11]%nat
  ∧ (length [12; 11]%nat < 3)%nat
  ∧ ∃ r, Manager.findSpecBySubsystem Demo.Obj 3 1%nat w = Manager.Done r w
         ∧ ((r = NULL
             ∧ ∀ x sp, x ∈ [12; 11]%nat → Manager.spec_heap w !! x = Some sp →
                       Manager.subsystem sp ≠ 1%nat)
            ∨ (∃ l1 l2 sp, [12; 11]%nat = l1 ++ r :: l2
                 ∧ Manager.spec_heap w !! r = Some sp ∧ Manager.subsystem sp = 1%nat
                 ∧ ∀ y spy, y ∈ l1 → Manager.spec_heap w !! y = Some spy →
                            Manager.subsystem spy ≠ 1%nat)).
Proof.
  intros w. split; [apply pair_list|]. split; [cbn; lia|].
  apply (find_returns_first_match Demo.Obj 3 1%nat w [12; 11]%nat);
    [apply pair_list | cbn; lia].
Defined.

Lemma setup_and_start_return_on_acyclic_graph_witness :
  let w := Demo.pair INIT INIT in
  let rank := λ p : ptr, if decide (p = 1%nat) then 1%nat else 0%nat in
  Manager.acyclic Demo.Obj rank w [12; 11]%nat
  ∧ (∀ x sp, x ∈ [12; 11]%nat → Manager.spec_heap w !! x = Some sp →
             (rank (Manager.subsystem sp) ≤ 1)%nat)
  ∧ (1 + 2 * length [12; 11]%nat + 3 ≤ 8)%nat
  ∧ ∃ w1 w2, Demo.setup 8 0 w = Manager.Done READY w1
             ∧ Demo.start 8 0 w1 = Manager.Done RUNNING w2
             ∧ Manager.mgr_status w1 = READY ∧ Manager.mgr_status w2 = RUNNING.
Proof.
  intros w rank.
  assert (Manager.acyclic Demo.Obj rank w [12; 11]%nat) as Hac.
  { split; [apply pair_list|]. intros x Hx.
    apply elem_of_cons in Hx as [->|Hx]; [|apply list_elem_of_singleton in Hx as ->].
    - exists (Manager.mkSpec 2 [] 11). split; [by vm_compute|]. split; [by eexists|].
      by intros d []%elem_of_nil.
    - exists (Manager.mkSpec 1 [2%nat] NULL). split; [by vm_compute|]. split; [by eexists|].
      intros d ->%list_elem_of_singleton. vm_compute. lia. }
  assert (∀ x sp, x ∈ [12; 11]%nat → Manager.spec_heap w !! x = Some sp →
                  (rank (Manager.subsystem sp) ≤ 1)%nat) as Hrank.
  { intros x sp Hx Hsp.
    destruct (pair_specs INIT INIT x sp Hx Hsp) as [[_ ->]|[_ ->]]; vm_compute; lia. }
  split; [done|]. split; [done|]. split; [cbn; lia|].
  apply (setup_and_start_return_on_acyclic_graph Demo.Obj Base.getStatus Demo.vsetup
           Demo.vstart rank [12; 11]%nat 1 8 0 w); [done | done | cbn; lia].
Defined.

Lemma unregistered_dependency_is_skipped_witness :
  let w := Demo.pair INIT INIT in
  Manager.lseg (Manager.spec_heap w) (Manager.specs w) [12; 11]%nat
  ∧ (∀ x sp, x ∈ [12; 11]%nat → Manager.spec_heap w !! x = Some sp →
             Manager.subsystem sp ≠ 3%nat)
  ∧ (length [12; 11]%nat < 3)%nat
  ∧ (s ← Manager.findSpecBySubsystem Demo.Obj 3 3%nat; Demo.descend 3 s READY 0) w
    = Manager.Done tt (Manager.with_trace
                         (Manager.trace w ++ [Manager.EvCall NULL READY 0]) w).
Proof.
  intros w.
  assert (∀ x sp, x ∈ [12; 11]%nat → Manager.spec_heap w !! x = Some sp →
                  Manager.subsystem sp ≠ 3%nat) as Hnone.
  { intros x sp Hx Hsp.
    by destruct (pair_specs INIT INIT x sp Hx Hsp) as [[_ ->]|[_ ->]]. }
  split; [apply pair_list|]. split; [done|]. split; [cbn; lia|].
  apply (unregistered_dependency_is_skipped Demo.Obj Base.getStatus Demo.vsetup Demo.vstart
           3 w [12; 11]%nat 3%nat READY 0); [apply pair_list | done | cbn; lia].
Defined.

Lemma addSubsystem_drops_malformed_witness :
  let w := Manager.with_spec_heap Demo.Obj
             (<[13%nat := Manager.mkSpec NULL [2%nat] NULL]>
                (Manager.spec_heap (Demo.pair INIT INIT)))
             (Demo.pair INIT INIT) in
  (13%nat = NULL
   ∨ ∃ sp, Manager.spec_heap w !! 13%nat = Some sp ∧ Manager.subsystem sp = NULL)
  ∧ ∃ w', Manager.addSubsystem Demo.Obj 13%nat w = Manager.Done tt w'
          ∧ Manager.head_of Demo.Obj w' = Manager.head_of Demo.Obj w
          ∧ Manager.setup_flag w' = true
          ∧ Manager.spec_heap w' = Manager.spec_heap w
          ∧ Manager.objs w' = Manager.objs w ∧ Manager.trace w' = Manager.trace w.
Proof.
  intros w.
  assert (13%nat = NULL
          ∨ ∃ sp, Manager.spec_heap w !! 13%nat = Some sp ∧ Manager.subsystem sp = NULL)
    as Hbad.
  { right. exists (Manager.mkSpec NULL [2%nat] NULL). split; [by vm_compute|done]. }
  split; [done|]. by apply (addSubsystem_drops_malformed Demo.Obj w 13%nat).
Defined.

Lemma registered_spec_is_found_witness :
  let w := Manager.cycle_world Demo.Obj 1 2 11 12 Base.construct Base.construct in
  11%nat ≠ NULL
  ∧ Manager.spec_heap w !! 11%nat = Some (Manager.mkSpec 1 [2%nat] NULL)
  ∧ 1%nat ≠ NULL
  ∧ ∃ w', (Manager.addSubsystem Demo.Obj 11%nat ;;
           Manager.findSpecBySubsystem Demo.Obj 1 1%nat) w = Manager.Done 11%nat w'
          ∧ Manager.specs w' = 11%nat
          ∧ Manager.spec_heap w' !! 11%nat
            = Some (Manager.mkSpec 1 [2%nat] (Manager.head_of Demo.Obj w)).
Proof.
  intros w. do 3 (split; [by vm_compute|]).
  by apply (registered_spec_is_found Demo.Obj 0 w 11%nat (Manager.mkSpec 1 [2%nat] NULL)).
Defined.

Lemma registration_reverses_order_witness :
  let w := Manager.cycle_world Demo.Obj 1 2 11 12 Base.construct Base.construct in
  Manager.setup_flag w = false ∧ [11; 12]%nat ≠ [] ∧ NoDup [11; 12]%nat
  ∧ (∀ x, x ∈ [11; 12]%nat →
          x ≠ NULL ∧ ∃ sp, Manager.spec_heap w !! x = Some sp ∧ Manager.subsystem sp ≠ NULL)
  ∧ ∃ w', Manager.register Demo.Obj [11; 12]%nat w = Manager.Done tt w'
          ∧ Manager.lseg (Manager.spec_heap w') (Manager.specs w') (rev [11; 12]%nat)
          ∧ Manager.specs w' ≠ NULL
          ∧ Manager.objs w' = Manager.objs w ∧ Manager.trace w' = Manager.trace w
          ∧ Manager.mgr_status w' = Manager.mgr_status w
          ∧ (∀ y sp, Manager.spec_heap w !! y = Some sp →
               ∃ n, Manager.spec_heap w' !! y
                    = Some (Manager.mkSpec (Manager.subsystem sp) (Manager.deps sp) n)).
Proof.
  intros w.
  assert (NoDup [11; 12]%nat) as Hnd by (apply (bool_decide_unpack _); by vm_compute).
  assert (∀ x, x ∈ [11; 12]%nat →
            x ≠ NULL ∧ ∃ sp, Manager.spec_heap w !! x = Some sp ∧ Manager.subsystem sp ≠ NULL)
    as Hall.
  { intros x Hx.
    apply elem_of_cons in Hx as [->|Hx]; [|apply list_elem_of_singleton in Hx as ->].
    - split; [done|]. exists (Manager.mkSpec 1 [2%nat] NULL). by vm_compute.
    - split; [done|]. exists (Manager.mkSpec 2 [1%nat] NULL). by vm_compute. }
  split; [done|]. split; [done|]. split; [done|]. split; [done|].
  by apply (registration_reverses_order Demo.Obj [11; 12]%nat w).
Defined.

Lemma double_registration_loops_witness :
  let w := Manager.cycle_world Demo.Obj 1 2 11 12 Base.construct Base.construct in
  11%nat ≠ NULL
  ∧ Manager.spec_heap w !! 11%nat = Some (Manager.mkSpec 1 [2%nat] NULL)
  ∧ 1%nat ≠ NULL
  ∧ ∃ w2, (Manager.addSubsystem Demo.Obj 11%nat ;; Manager.addSubsystem Demo.Obj 11%nat) w
          = Manager.Done tt w2
          ∧ Manager.specs w2 = 11%nat
          ∧ Manager.spec_heap w2 !! 11%nat = Some (Manager.mkSpec 1 [2%nat] 11)
          ∧ (∀ fuel needle, needle ≠ 1%nat →
               Manager.findSpecBySubsystem Demo.Obj fuel needle w2 = Manager.OutOfFuel w2)
          ∧ (∀ fuel depth0 r w', Demo.setup fuel depth0 w2 ≠ Manager.Done r w').
Proof.
  intros w. do 3 (split; [by vm_compute|]).
  by apply (double_registration_loops Demo.Obj Base.getStatus Demo.vsetup Demo.vstart
              w 11%nat (Manager.mkSpec 1 [2%nat] NULL)).
Defined.

(** ** DataThing: registrations of any number *)

(** X12. After any run of [registerCallback] calls on a fresh [DataThing],
    [callCallbacks] reads inside the array and calls the registered
    callbacks in the order of their registration, each with the data and
    its own argument: all of them when there are at most eight, the first
    eight otherwise, none when there is none.  The count never passes
    eight and the data is not touched. *)
Theorem callbacks_fire_in_registration_order {T} (d : T) junk (regs : list (ptr * ptr)) :
  let self := DataThing.registerAll regs (DataThing.construct d junk) in
  DataThing.callCallbacks self
  = Some ((λ r, DataThing.mkInvocation r.1 d r.2) <$> take 8 regs)
  ∧ DataThing.numCallbacks self = Z.of_nat (length regs `min` 8)
  ∧ DataThing.data self = d.
Proof.
  intros self.
  pose proof (registerAll_holds regs [] d _ (holds_construct d junk)) as Hh.
  fold self in Hh. rewrite app_nil_l, <- fmap_take in Hh.
  split; [|split].
  - by rewrite (callCallbacks_holds _ _ _ Hh), <- list_fmap_compose.
  - destruct Hh as (_ & -> & _). rewrite length_fmap, length_take. f_equal. lia.
  - by destruct Hh as (-> & _).
Qed.

(** ** ThreadedSubsystem: failure and the start-up delay *)

Lemma restart_faulted results : ∀ n,
  foldl (λ acc created,
           let r := Threaded.start created acc.1 in
           (Threaded.object r, (acc.2 + Threaded.creations r)%nat))
        (Threaded.mkThreaded FAULT NULL, n) results
  = (Threaded.mkThreaded FAULT NULL, n).
Proof.
  induction results as [|created results IH]; intros n; [done|].
  cbn [foldl fst snd].
  assert (Threaded.start created (Threaded.mkThreaded FAULT NULL)
          = Threaded.mkStartResult FAULT (Threaded.mkThreaded FAULT NULL) 0) as ->
    by reflexivity.
  cbn [Threaded.object Threaded.creations].
  replace (n + 0)%nat with n by lia. apply IH.
Qed.

(** X13. A task creation that fails is final.  When [start()] is called on
    a subsystem that is not in [FAULT] and the creation fails, the
    subsystem is in [FAULT] with a null handle, and every later [start()]
    leaves it so and does not even try to create the task again: one
    creation was attempted in all. *)
Theorem failed_start_is_permanent (results : list ptr) (self : Threaded.ThreadedSubsystem) :
  Threaded.getStatus self ≠ FAULT →
  Threaded.restart (NULL :: results) self = (Threaded.mkThreaded FAULT NULL, 1%nat).
Proof.
  intros Hnf. unfold Threaded.restart. cbn [foldl fst snd].
  assert (Threaded.start NULL self
          = Threaded.mkStartResult FAULT (Threaded.mkThreaded FAULT NULL) 1) as ->.
  { unfold Threaded.start. by rewrite bool_decide_eq_true_2 by done. }
  apply restart_faulted.
Qed.

Lemma failed_start_is_permanent_witness :
  Threaded.getStatus Threaded.construct ≠ FAULT
  ∧ Threaded.restart [NULL; 7; 8; 9]%nat Threaded.construct
    = (Threaded.mkThreaded FAULT NULL, 1%nat).
Proof.
  split; [discriminate|].
  apply (failed_start_is_permanent [7; 8; 9]%nat Threaded.construct). discriminate.
Defined.

(** X14. The start-up delay is between one tick and [maximum_number]
    ticks, whatever [esp_random()] gives, when the tick rate is 10 Hz or
    more (100 ticks at most at 1 kHz); below 10 Hz [maximum_number] is 0
    and the remainder is taken by zero. *)
Theorem task_delay_in_range (tick_rate_hz random : Z) :
  0 ≤ tick_rate_hz → 100 * tick_rate_hz < 2 ^ 31 →
  0 ≤ random < 2 ^ 32 →
  if decide (tick_rate_hz < 10)
  then Threaded.task_delay tick_rate_hz random = None
  else ∃ delay, Threaded.task_delay tick_rate_hz random = Some delay
                ∧ Threaded.minimum_number ≤ delay ≤ Threaded.maximum_number tick_rate_hz.
Proof.
  intros Hhz Hbig Hrnd. unfold Threaded.task_delay, Threaded.maximum_number,
    Threaded.minimum_number.
  rewrite Z.quot_div_nonneg by lia.
  set (m := (100 * tick_rate_hz) `div` 1000).
  assert (0 ≤ m < 2 ^ 31) as Hm.
  { unfold m. split; [apply Z.div_pos; lia|].
    apply Z.div_lt_upper_bound; lia. }
  replace (m + 1 - 1) with m by lia.
  rewrite (Z.mod_small m) by lia.
  case_decide as Hlow.
  - assert (m = 0) as -> by (unfold m; apply Z.div_small; lia). by rewrite decide_True.
  - assert (1 ≤ m) as Hm1.
    { unfold m. apply Z.div_le_lower_bound; lia. }
    rewrite decide_False by lia. eexists. split; [done|].
    pose proof (Z.mod_pos_bound random m ltac:(lia)) as Hmod.
    rewrite Z.mod_small by lia. lia.
Qed.

Lemma task_delay_in_range_witness :
  0 ≤ 1000 ∧ 100 * 1000 < 2 ^ 31 ∧ 0 ≤ 123456789 < 2 ^ 32
  ∧ ∃ delay, Threaded.task_delay 1000 123456789 = Some delay
             ∧ Threaded.minimum_number ≤ delay ≤ Threaded.maximum_number 1000.
Proof.
  split; [lia|]. split; [lia|]. split; [lia|].
  apply (task_delay_in_range 1000 123456789); lia.
Defined.

(** ** ReadWriteLock: sections that open and close *)

Section RWLockSections.

Import RWLock.

Implicit Types (s : State) (th : Thread) (t : nat) (op : Op).

(** A call of thread [t] changes the two counts and the record of [t],
    nothing else. *)
Lemma exec_local t op s th :
  threads s !! t = Some th →
  exec t op s
  = mkState (local_step op (sem s, mutex s, th)).1.1
            (local_step op (sem s, mutex s, th)).1.2
            (<[t := (local_step op (sem s, mutex s, th)).2]> (threads s)).
Proof.
  intros Ht. unfold exec, local_step. rewrite Ht. cbn [fst snd].
  assert (s = mkState (sem s) (mutex s) (<[t := th]> (threads s))) as Hsame.
  { rewrite list_insert_id by done. by destruct s. }
  destruct th as [r ph]. unfold step_thread.
  destruct op, ph as [|count| |count]; cbn [wphase rheld sem mutex];
    repeat case_decide; cbn [fst snd sem mutex threads]; done.
Qed.

Lemma run_local t ops : ∀ s th,
  threads s !! t = Some th →
  run ((λ op, (t, op)) <$> ops) s
  = mkState (foldl (λ c op, local_step op c) (sem s, mutex s, th) ops).1.1
            (foldl (λ c op, local_step op c) (sem s, mutex s, th) ops).1.2
            (<[t := (foldl (λ c op, local_step op c) (sem s, mutex s, th) ops).2]>
               (threads s)).
Proof.
  induction ops as [|op ops IH]; intros s th Ht.
  - cbn. rewrite list_insert_id by done. by destruct s.
  - rewrite fmap_cons, run_cons. cbn [foldl fst snd].
    rewrite (exec_local t op s th Ht).
    destruct (local_step op (sem s, mutex s, th)) as [[c m] th1] eqn:Hstep.
    cbn [fst snd]. rewrite (IH _ th1).
    + cbn [sem mutex threads]. by rewrite list_insert_insert_eq.
    + cbn [threads]. apply list_lookup_insert_eq. by eapply lookup_lt_Some.
Qed.

(** The semaphore never counts more than its tokens, whoever gives. *)
Lemma exec_sem_bounded t op s :
  (sem s ≤ MAX_READERS)%nat → (sem (exec t op s) ≤ MAX_READERS)%nat.
Proof.
  intros Hs. unfold exec. destruct (threads s !! t) as [[r ph]|]; [|done].
  unfold step_thread, give, MAX_READERS in *.
  destruct op, ph; cbn [wphase rheld]; repeat case_decide; cbn [sem]; lia.
Qed.

Lemma run_sem_bounded sched : ∀ s,
  (sem s ≤ MAX_READERS)%nat → (sem (run sched s) ≤ MAX_READERS)%nat.
Proof.
  induction sched as [|[t op] sched IH]; intros s Hs; [done|].
  rewrite run_cons. by apply IH, exec_sem_bounded.
Qed.

(** X15. [RLock()] followed by [RUnlock()] leaves the lock exactly as it
    was.  In every state the lock can reach, whatever the callers did
    before, a thread outside [Lock()] and [UnLock()] that finds a token
    free gets through [RLock()] without
    waiting, holds one read lock more and has taken one token; its
    [RUnlock()] then restores the semaphore, the mutex and the records of
    all threads. *)
Theorem read_lock_round_trip (nthreads : nat) (sched : list (nat * Op)) t th :
  let s := run sched (construct nthreads) in
  threads s !! t = Some th → wphase th = NotWriter →
  (0 < sem s)%nat →
  let mid := exec t OpRLock s in
  threads mid !! t = Some (mkThread (S (rheld th)) NotWriter)
  ∧ sem mid = pred (sem s) ∧ mutex mid = mutex s
  ∧ exec t OpRUnlock mid = s.
Proof.
  intros s Ht Hph Hfree mid.
  assert (sem s ≤ MAX_READERS)%nat as Hsem by (by apply run_sem_bounded).
  destruct th as [r ph]. cbn [wphase] in Hph. subst ph.
  assert (t < length (threads s))%nat as Hlt by by eapply lookup_lt_Some.
  assert (mid = mkState (pred (sem s)) (mutex s)
                  (<[t := mkThread (S r) NotWriter]> (threads s))) as ->.
  { unfold mid. rewrite (exec_local t OpRLock s _ Ht).
    unfold local_step, step_thread. cbn [wphase sem mutex fst snd].
    by rewrite decide_True by done. }
  cbn [threads sem mutex rheld].
  split; [by apply list_lookup_insert_eq|]. split; [done|]. split; [done|].
  rewrite (exec_local t OpRUnlock _ (mkThread (S r) NotWriter))
    by (by apply list_lookup_insert_eq).
  unfold local_step, step_thread, give, MAX_READERS in *.
  cbn [wphase rheld sem mutex threads fst snd].
  rewrite decide_True by lia.
  cbn [sem mutex fst snd next_thread wphase rheld Init.Nat.pred].
  rewrite list_insert_insert_eq, list_insert_id by done.
  destruct s as [c m ths]. cbn [sem] in *. f_equal. lia.
Qed.

Lemma read_lock_round_trip_witness :
  let s := run [(1, OpRLock); (0, OpLock)]%nat (construct 3) in
  threads s !! 2%nat = Some (mkThread 0 NotWriter)
  ∧ wphase (mkThread 0 NotWriter) = NotWriter
  ∧ (0 < sem s)%nat
  ∧ let mid := exec 2 OpRLock s in
    threads mid !! 2%nat = Some (mkThread (S (rheld (mkThread 0 NotWriter))) NotWriter)
    ∧ sem mid = pred (sem s) ∧ mutex mid = mutex s
    ∧ exec 2 OpRUnlock mid = s.
Proof.
  intros s. split; [done|]. split; [done|]. split; [subst s; vm_compute; lia|].
  apply (read_lock_round_trip 3 [(1, OpRLock); (0, OpLock)]%nat 2 (mkThread 0 NotWriter));
    [done | done | subst s; vm_compute; lia].
Defined.

(** X16. [Lock()] followed by [UnLock()] leaves a free lock exactly as it
    was.  On a lock with all tokens in the semaphore and the mutex free,
    the nine semaphore calls of [Lock()] by a thread that is outside
    [Lock()] and [UnLock()] go through without waiting and make the thread
    the writer, with no token left and the mutex taken; the nine calls of
    [UnLock()] then restore the semaphore, the mutex and the records of all
    threads. *)
Theorem write_lock_round_trip (nthreads : nat) (sched : list (nat * Op)) t th :
  let s := run sched (construct nthreads) in
  sem s = MAX_READERS → mutex s = 1%nat →
  threads s !! t = Some th → wphase th = NotWriter →
  let mid := run (replicate 9 (t, OpLock)) s in
  threads mid !! t = Some (mkThread (rheld th) Writer)
  ∧ sem mid = 0%nat ∧ mutex mid = 0%nat
  ∧ run (replicate 9 (t, OpUnLock)) mid = s.
Proof.
  intros s Hfree Hmutex Ht Hph mid.
  destruct th as [r ph]. cbn [wphase rheld] in *. subst ph.
  assert (mid = mkState 0 0 (<[t := mkThread r Writer]> (threads s))) as Hmid.
  { unfold mid. change (replicate 9 (t, OpLock))
      with ((λ op, (t, op)) <$> replicate 9 OpLock).
    rewrite (run_local t _ s _ Ht), Hfree, Hmutex. reflexivity. }
  assert (t < length (threads s))%nat as Hlt by by eapply lookup_lt_Some.
  rewrite Hmid. cbn [threads sem mutex].
  split; [by apply list_lookup_insert_eq|]. split; [done|]. split; [done|].
  change (replicate 9 (t, OpUnLock)) with ((λ op, (t, op)) <$> replicate 9 OpUnLock).
  rewrite (run_local t _ _ (mkThread r Writer))
    by (by apply list_lookup_insert_eq).
  cbn [sem mutex threads].
  assert (foldl (λ c op, local_step op c) (0%nat, 0%nat, mkThread r Writer)
            (replicate 9 OpUnLock) = (8%nat, 1%nat, mkThread r NotWriter)) as ->
    by reflexivity.
  cbn [fst snd]. rewrite list_insert_insert_eq, list_insert_id by done.
  destruct s. cbn in *. by subst.
Qed.

Lemma write_lock_round_trip_witness :
  let s := run [(1, OpRLock); (1, OpRUnlock)]%nat (construct 3) in
  sem s = MAX_READERS ∧ mutex s = 1%nat
  ∧ threads s !! 2%nat = Some (mkThread 0 NotWriter)
  ∧ wphase (mkThread 0 NotWriter) = NotWriter
  ∧ let mid := run (replicate 9 (2%nat, OpLock)) s in
    threads mid !! 2%nat = Some (mkThread (rheld (mkThread 0 NotWriter)) Writer)
    ∧ sem mid = 0%nat ∧ mutex mid = 0%nat
    ∧ run (replicate 9 (2%nat, OpUnLock)) mid = s.
Proof.
  intros s. split; [done|]. split; [done|]. split; [done|]. split; [done|].
  by apply (write_lock_round_trip 3 [(1, OpRLock); (1, OpRUnlock)]%nat 2
              (mkThread 0 NotWriter)).
Defined.

(** *** Holders keep the others out *)

Lemma exec_other t t' op s : t ≠ t' → threads (exec t op s) !! t' = threads s !! t'.
Proof.
  intros Hne. unfold exec. destruct (threads s !! t) as [th|]; [|done].
  destruct (step_thread op s th) as [f|] eqn:Hf; [|done]. cbn [threads].
  rewrite list_lookup_insert_ne by done.
  destruct th as [r ph]. unfold step_thread in Hf.
  destruct op, ph; cbn in Hf; repeat case_decide; try done; by injection Hf as <-.
Qed.

Lemma run_others t' sched : ∀ s,
  Forall (λ c, c.1 ≠ t') sched → threads (run sched s) !! t' = threads s !! t'.
Proof.
  induction sched as [|[t op] sched IH]; intros s Hall; [done|].
  apply Forall_cons in Hall as [Hne Hall]. rewrite run_cons. cbn [fst snd].
  rewrite IH by done. by apply exec_other.
Qed.

Lemma filter_length_lookup {A} (P : A → Prop) `{∀ x, Decision (P x)} (l : list A) i x :
  l !! i = Some x → P x → (1 ≤ length (filter P l))%nat.
Proof.
  intros Hi Hx. assert (x ∈ filter P l) as Hin.
  { apply list_elem_of_filter. split; [done|]. by eapply list_elem_of_lookup_2. }
  destruct (filter P l); [by apply elem_of_nil in Hin|]. cbn. lia.
Qed.

Lemma exec_keeps_read_locks t c s :
  (c.1 = t → c.2 = OpLock) →
  rheld <$> threads (exec c.1 c.2 s) !! t = rheld <$> threads s !! t.
Proof.
  intros Hc. destruct (decide (c.1 = t)) as [Heq|Hne]; [|by rewrite exec_other].
  rewrite (Hc Heq), Heq. unfold exec.
  destruct (threads s !! t) as [th|] eqn:Ht; [|by rewrite Ht].
  destruct (step_thread OpLock s th) as [f|] eqn:Hf; [|by rewrite Ht].
  cbn [threads].
  assert (threads (f s) = threads s) as ->.
  { destruct th as [r ph]. unfold step_thread in Hf.
    destruct ph; cbn in Hf; repeat case_decide; try done; by injection Hf as <-. }
  rewrite list_lookup_insert_eq by by eapply lookup_lt_Some.
  destruct th as [r ph]. by destruct ph.
Qed.

Lemma run_keeps_read_locks t later : ∀ s,
  Forall (λ c, c.1 = t → c.2 = OpLock) later →
  rheld <$> threads (run later s) !! t = rheld <$> threads s !! t.
Proof.
  induction later as [|c later IH]; intros s Hall; [done|].
  apply Forall_cons in Hall as [Hc Hall]. rewrite run_cons.
  rewrite IH by done. by apply exec_keeps_read_locks.
Qed.

(** X17. A read lock keeps every writer out, the reader itself included,
    as long as every thread unlocks only what it holds.  While a thread
    holds a read lock and does nothing but call [Lock()], no thread gets
    the write lock, whatever the other threads are scheduled for within
    that discipline: the reader that calls [Lock()] keeps its read lock and
    stays inside [Lock()]. *)
Theorem reader_keeps_writers_out (nthreads : nat) (sched later : list (nat * Op)) t th :
  let s := run sched (construct nthreads) in
  disciplined (sched ++ later) (construct nthreads) = true →
  threads s !! t = Some th → holds_read th = true →
  Forall (λ c, c.1 = t → c.2 = OpLock) later →
  let s' := run later s in
  writers s' = 0%nat
  ∧ ∃ th', threads s' !! t = Some th' ∧ rheld th' = rheld th ∧ holds_write th' = false.
Proof.
  intros s Hd Ht Hr Hlater s'.
  assert (s' = run (sched ++ later) (construct nthreads)) as Hs'.
  { unfold s', s, run. by rewrite foldl_app. }
  pose proof (reachable_invariant nthreads (sched ++ later) Hd) as (Hsem & _).
  rewrite <- Hs' in Hsem.
  pose proof (run_keeps_read_locks t later s Hlater) as Hkeep. fold s' in Hkeep.
  rewrite Ht in Hkeep. destruct (threads s' !! t) as [th'|] eqn:Ht'; [|done].
  injection Hkeep as Hkeep.
  assert (holds_read th' = true) as Hr'.
  { unfold holds_read in *. by rewrite Hkeep. }
  pose proof (holders_have_tokens (threads s')) as Htok.
  pose proof (filter_length_lookup (λ th, holds_read th = true) _ _ _ Ht' Hr') as Hone.
  unfold writers, MAX_READERS in *.
  assert (length (filter (λ th, holds_write th = true) (threads s')) = 0%nat) as Hw by lia.
  split; [done|]. exists th'. split; [done|]. split; [done|].
  destruct (holds_write th') eqn:Hhw; [|done].
  pose proof (filter_length_lookup (λ th, holds_write th = true) _ _ _ Ht' Hhw). lia.
Qed.

Lemma reader_keeps_writers_out_witness :
  let sched := [(0, OpRLock)]%nat in
  let later := [(1, OpRLock)]%nat ++ replicate 20 (0%nat, OpLock)
               ++ [(1, OpRUnlock)]%nat ++ replicate 20 (1%nat, OpLock) in
  let s := run sched (construct 2) in
  disciplined (sched ++ later) (construct 2) = true
  ∧ threads s !! 0%nat = Some (mkThread 1 NotWriter)
  ∧ holds_read (mkThread 1 NotWriter) = true
  ∧ Forall (λ c : nat * Op, c.1 = 0%nat → c.2 = OpLock) later
  ∧ let s' := run later s in
    writers s' = 0%nat
    ∧ ∃ th', threads s' !! 0%nat = Some th' ∧ rheld th' = rheld (mkThread 1 NotWriter)
             ∧ holds_write th' = false.
Proof.
  intros sched later s.
  assert (Forall (λ c : nat * Op, c.1 = 0%nat → c.2 = OpLock) later) as Hall.
  { apply Forall_app. split; [repeat constructor; cbn; lia|].
    apply Forall_app. split; [by apply Forall_replicate|].
    apply Forall_app. split; [repeat constructor; cbn; lia|].
    apply Forall_replicate. cbn. lia. }
  split; [by vm_compute|]. split; [done|]. split; [done|]. split; [done|].
  apply (reader_keeps_writers_out 2 sched later 0 (mkThread 1 NotWriter));
    [by vm_compute | done | done | done].
Defined.

(** X18. The write lock keeps everybody else out, as long as every thread
    unlocks only what it holds.  While the thread that holds the write
    lock is not scheduled, no other thread gets a read lock or the write
    lock, whatever the others are scheduled for within that discipline:
    there is no reader and the holder is the one writer. *)
Theorem writer_keeps_others_out (nthreads : nat) (sched others : list (nat * Op)) t th :
  let s := run sched (construct nthreads) in
  disciplined (sched ++ others) (construct nthreads) = true →
  threads s !! t = Some th → holds_write th = true →
  Forall (λ c, c.1 ≠ t) others →
  let s' := run others s in
  readers s' = 0%nat ∧ writers s' = 1%nat ∧ threads s' !! t = Some th.
Proof.
  intros s Hd Ht Hw Hothers s'.
  assert (s' = run (sched ++ others) (construct nthreads)) as Hs'.
  { unfold s', s, run. by rewrite foldl_app. }
  pose proof (reachable_invariant nthreads (sched ++ others) Hd) as (Hsem & _).
  rewrite <- Hs' in Hsem.
  assert (threads s' !! t = Some th) as Ht' by (unfold s'; by rewrite run_others).
  pose proof (holders_have_tokens (threads s')) as Htok.
  pose proof (filter_length_lookup (λ th, holds_write th = true) _ _ _ Ht' Hw).
  unfold writers, readers, MAX_READERS in *. split; [lia|]. split; [lia|done].
Qed.

Lemma writer_keeps_others_out_witness :
  let sched := replicate 9 (0%nat, OpLock) in
  let others := replicate 20 (1%nat, OpRLock) ++ replicate 20 (1%nat, OpLock) in
  let s := run sched (construct 2) in
  disciplined (sched ++ others) (construct 2) = true
  ∧ threads s !! 0%nat = Some (mkThread 0 Writer)
  ∧ holds_write (mkThread 0 Writer) = true
  ∧ Forall (λ c : nat * Op, c.1 ≠ 0%nat) others
  ∧ let s' := run others s in
    readers s' = 0%nat ∧ writers s' = 1%nat
    ∧ threads s' !! 0%nat = Some (mkThread 0 Writer).
Proof.
  intros sched others s.
  assert (Forall (λ c : nat * Op, c.1 ≠ 0%nat) others) as Hall.
  { apply Forall_app. split; apply Forall_replicate; cbn; lia. }
  split; [by vm_compute|]. split; [done|]. split; [done|]. split; [done|].
  apply (writer_keeps_others_out 2 sched others 0 (mkThread 0 Writer));
    [by vm_compute | done | done | done].
Defined.

End RWLockSections.
